(** * GCodeWebSimulator: parser, path generator and animation-frame synthesizer

    A shallow embedding of
      - [gcodeParser.ts]        ([parseCommand], [parseGCode], [validateGCode]),
      - [gcodePathGenerator.ts] (class [GCodePathGenerator]),
      - [GCodeViewer.vue]       ([calculateAnimationFrames],
                                 [calculateToolHeadDistance],
                                 [calculateAppropriateSpeed] and the part of
                                 [updatePath] that chooses the speed),
      - [stores/gcode.ts]       (the actions of the store),
    followed by the properties of the specification that concern them and by
    further properties of the same code.

    JavaScript numbers of the parser and of the path generator are IEEE-754
    binary64 values, modelled by Rocq's primitive [float]; text is modelled as
    [string] over 7-bit ASCII characters. *)

From Stdlib Require Import PrimFloat FloatOps SpecFloat FloatAxioms.
From Stdlib Require Import ZArith Bool List String Ascii Lia.
From Stdlib Require Import Reals Lra Sorted.
Import ListNotations.

Set Implicit Arguments.

(* ================================================================== *)
(** * JavaScript built-ins used by the sources *)
(* ================================================================== *)

Module JS.

(** ** Numbers *)

(** [isNaN(v)] *)
Definition isNaN (v : float) : bool := PrimFloat.is_nan v.

(** [!v] for a number: [0], [-0] and [NaN] are falsy. *)
Definition falsy (v : float) : bool := PrimFloat.is_zero v || PrimFloat.is_nan v.

(** [!o] for an optional number ([undefined] is falsy). *)
Definition falsy_opt (o : option float) : bool :=
  match o with
  | None => true
  | Some v => falsy v
  end.

(** [o || 0] for an optional number. *)
Definition or_zero (o : option float) : float :=
  match o with
  | None => PrimFloat.zero
  | Some v => if falsy v then PrimFloat.zero else v
  end.

(** [o ?? 0]. *)
Definition nullish_zero (A : Type) (d : A) (o : option A) : A :=
  match o with
  | None => d
  | Some v => v
  end.

(** [a > b] *)
Definition gt (a b : float) : bool := (b <? a)%float.

(** [a === b] on numbers *)
Definition strict_eq (a b : float) : bool := (a =? b)%float.

(** [Math.max(a, b)]: [NaN] if either is [NaN]; [+0] is larger than [-0]. *)
Definition Math_max (a b : float) : float :=
  if is_nan a || is_nan b then nan
  else if (a <? b)%float then b
  else if (b <? a)%float then a
  else if get_sign a then b else a.

(** [Math.min(a, b)]: [NaN] if either is [NaN]; [-0] is smaller than [+0]. *)
Definition Math_min (a b : float) : float :=
  if is_nan a || is_nan b then nan
  else if (a <? b)%float then a
  else if (b <? a)%float then b
  else if get_sign a then a else b.

(** The binary64 value nearest to [(-1)^neg * m * 10^e10]
    (round to nearest, ties to even; overflow gives an infinity). *)
Definition float_of_decimal (neg : bool) (m e10 : Z) : float :=
  match m with
  | Z0 => if neg then PrimFloat.neg_zero else PrimFloat.zero
  | Zpos p =>
      if (0 <=? e10)%Z
      then SF2Prim (binary_normalize prec emax
                      (if neg then (- (m * 10 ^ e10))%Z else (m * 10 ^ e10)%Z)
                      0 false)
      else SF2Prim (SFdiv prec emax (S754_finite neg p 0)
                      (S754_finite false (Z.to_pos (10 ^ (- e10))) 0))
  | Zneg _ => nan
  end.

(** ** Characters and strings *)

Definition code (c : ascii) : nat := nat_of_ascii c.

(** White space of [trim] and of the regular expression class [\s]
    (TAB, LF, VT, FF, CR, SPACE). *)
Definition isWhiteSpace (c : ascii) : bool :=
  let n := code c in
  ((9 <=? n) && (n <=? 13)) || (n =? 32).

(** Line terminators, which the regular expression [.] does not match. *)
Definition isLineTerminator (c : ascii) : bool :=
  let n := code c in
  (n =? 10) || (n =? 13).

Definition isDigit (c : ascii) : bool :=
  let n := code c in
  (48 <=? n) && (n <=? 57).

Definition upper_char (c : ascii) : ascii :=
  let n := code c in
  if (97 <=? n) && (n <=? 122) then ascii_of_nat (n - 32) else c.

(** [s.toUpperCase()] *)
Fixpoint toUpperCase (s : string) : string :=
  match s with
  | EmptyString => EmptyString
  | String c r => String (upper_char c) (toUpperCase r)
  end.

Definition isEmpty (s : string) : bool :=
  match s with
  | EmptyString => true
  | String _ _ => false
  end.

Fixpoint trimStart (s : string) : string :=
  match s with
  | EmptyString => EmptyString
  | String c r => if isWhiteSpace c then trimStart r else s
  end.

Fixpoint trimEnd (s : string) : string :=
  match s with
  | EmptyString => EmptyString
  | String c r =>
      let r' := trimEnd r in
      if isWhiteSpace c && isEmpty r' then EmptyString else String c r'
  end.

(** [s.trim()] *)
Definition trim (s : string) : string := trimEnd (trimStart s).

(** [s.split(sep)] for a one-character separator. *)
Fixpoint split_char_aux (sep : ascii) (cur : string) (s : string) : list string :=
  match s with
  | EmptyString => [cur]
  | String c r =>
      if Ascii.eqb c sep
      then cur :: split_char_aux sep EmptyString r
      else split_char_aux sep (cur ++ String c EmptyString) r
  end.

Definition split_char (sep : ascii) (s : string) : list string :=
  split_char_aux sep EmptyString s.

(** [s.split(sep)[0]] *)
Definition split_first (sep : ascii) (s : string) : string :=
  match split_char sep s with
  | [] => EmptyString
  | h :: _ => h
  end.

(** [s.split(/\s+/)]: [skipping] holds while a run of white space is being
    consumed. *)
Fixpoint split_ws_aux (cur : string) (skipping : bool) (s : string) : list string :=
  match s with
  | EmptyString => [cur]
  | String c r =>
      if isWhiteSpace c
      then if skipping then split_ws_aux cur true r
           else cur :: split_ws_aux EmptyString true r
      else split_ws_aux (cur ++ String c EmptyString) false r
  end.

Definition split_ws (s : string) : list string := split_ws_aux EmptyString false s.

(** [s.startsWith(c)] for a one-character prefix. *)
Definition startsWith (c : ascii) (s : string) : bool :=
  match s with
  | EmptyString => false
  | String d _ => Ascii.eqb d c
  end.

(** [s.slice(1)] *)
Definition slice1 (s : string) : string :=
  match s with
  | EmptyString => EmptyString
  | String _ r => r
  end.

(** [s[0]] *)
Definition first_char (s : string) : option ascii :=
  match s with
  | EmptyString => None
  | String c _ => Some c
  end.

(** [s.includes(c)] for a one-character needle. *)
Fixpoint includes (c : ascii) (s : string) : bool :=
  match s with
  | EmptyString => false
  | String d r => Ascii.eqb d c || includes c r
  end.

(** ** [parseInt] and [parseFloat] *)

Definition digit_value (radix : Z) (c : ascii) : option Z :=
  let n := Z.of_nat (code c) in
  let v := if ((48 <=? n) && (n <=? 57))%Z then Some (n - 48)%Z
           else if ((97 <=? n) && (n <=? 122))%Z then Some (n - 87)%Z
           else if ((65 <=? n) && (n <=? 90))%Z then Some (n - 55)%Z
           else None in
  match v with
  | Some d => if (d <? radix)%Z then Some d else None
  | None => None
  end.

(** Longest prefix of digits in [radix]: its value continuing [acc], the
    number of digits read continuing [cnt], and the unread rest. *)
Fixpoint read_digits (radix : Z) (acc : Z) (cnt : nat) (s : string) : Z * nat * string :=
  match s with
  | EmptyString => (acc, cnt, s)
  | String c r =>
      match digit_value radix c with
      | Some d => read_digits radix (acc * radix + d)%Z (S cnt) r
      | None => (acc, cnt, s)
      end
  end.

Definition read_sign (s : string) : bool * string :=
  match s with
  | String "-"%char r => (true, r)
  | String "+"%char r => (false, r)
  | _ => (false, s)
  end.

(** [parseInt(s)] with no radix argument: leading white space, an optional
    sign, an optional [0x]/[0X] prefix, then the longest run of digits;
    [NaN] when there is no digit. *)
Definition parseInt (s : string) : float :=
  let (neg, s1) := read_sign (trimStart s) in
  let (radix, s2) :=
    match s1 with
    | String "0"%char (String "x"%char r) => (16%Z, r)
    | String "0"%char (String "X"%char r) => (16%Z, r)
    | _ => (10%Z, s1)
    end in
  let '(m, cnt, _) := read_digits radix 0 0 s2 in
  match cnt with
  | O => nan
  | S _ => float_of_decimal neg m 0
  end.

Fixpoint has_prefix (p s : string) : bool :=
  match p, s with
  | EmptyString, _ => true
  | String a p', String b s' => Ascii.eqb a b && has_prefix p' s'
  | String _ _, EmptyString => false
  end.

(** The exponent part [e[+-]?digits] at the head of [s], when well formed. *)
Definition read_exponent (s : string) : Z :=
  match s with
  | String c r =>
      if Ascii.eqb c "e"%char || Ascii.eqb c "E"%char then
        let (eneg, r1) := read_sign r in
        let '(e, cnt, _) := read_digits 10 0 0 r1 in
        match cnt with
        | O => 0%Z
        | S _ => if eneg then (- e)%Z else e
        end
      else 0%Z
  | EmptyString => 0%Z
  end.

(** [parseFloat(s)]: leading white space, then the longest prefix that is a
    decimal literal (sign, [Infinity], digits, fraction, exponent); [NaN]
    when there is none. *)
Definition parseFloat (s : string) : float :=
  let (neg, s1) := read_sign (trimStart s) in
  if has_prefix "Infinity" s1 then (if neg then neg_infinity else infinity)
  else
    let '(mi, ci, s2) := read_digits 10 0 0 s1 in
    let '(m, cf, s3) :=
      match s2 with
      | String "."%char r =>
          let '(m', cf', r') := read_digits 10 mi 0 r in
          match ci, cf' with
          | O, O => (mi, O, s2)
          | _, _ => (m', cf', r')
          end
      | _ => (mi, O, s2)
      end in
    match ci, cf with
    | O, O => nan
    | _, _ => float_of_decimal neg m (read_exponent s3 - Z.of_nat cf)
    end.

(** ** The order of numbers *)

Definition notNaN (a : float) : Prop := is_nan a = false.

(** [a <= b] *)
Definition le (a b : float) : Prop := (a <=? b)%float = true.

(** A key whose lexicographic order is the order of the numbers that are
    not NaN: the class (infinities, negative, zero, positive), then exponent
    and mantissa, both negated for negative numbers. *)
Definition orderKey (v : spec_float) : Z * Z * Z :=
  match v with
  | S754_nan => (0, 0, 0)%Z
  | S754_infinity true => (-2, 0, 0)%Z
  | S754_infinity false => (2, 0, 0)%Z
  | S754_zero _ => (0, 0, 0)%Z
  | S754_finite true m e => (-1, - e, Zneg m)%Z
  | S754_finite false m e => (1, e, Zpos m)%Z
  end.

Definition lexle (k k' : Z * Z * Z) : Prop :=
  let '(a, b, c) := k in
  let '(a', b', c') := k' in
  (a < a' \/ (a = a' /\ (b < b' \/ (b = b' /\ c <= c'))))%Z.

End JS.

(* ================================================================== *)
(** * gcodeParser.ts *)
(* ================================================================== *)

Module Parser.
Import JS.

(** The [type] of a [GCodeCommand]. *)
Inductive CommandType : Set :=
| G0 | G1 | G2 | G3 | G28 | G90 | G91 | G40 | G17 | G71 | G43
| M104 | M140 | M106 | M107 | M03 | M06 | T | OTHER.

(** [GCodeCommand['params']]: the object holding the parameter letters the
    parser may set; an absent key is [None]. *)
Record Params : Set := mkParams {
  pG : option float; pM : option float; pT : option float;
  pX : option float; pY : option float; pZ : option float;
  pE : option float; pF : option float; pH : option float;
  pS : option float; pI : option float; pJ : option float;
  pK : option float; pR : option float
}.

Definition noParams : Params :=
  mkParams None None None None None None None None None None None None None None.

(** [params[param] = v] for the letters the parser writes. *)
Definition set_param (param : ascii) (v : float) (p : Params) : Params :=
  let (g, m, t, x, y, z, e, f, h, s, i, j, k, r) := p in
  match param with
  | "G"%char => mkParams (Some v) m t x y z e f h s i j k r
  | "M"%char => mkParams g (Some v) t x y z e f h s i j k r
  | "T"%char => mkParams g m (Some v) x y z e f h s i j k r
  | "X"%char => mkParams g m t (Some v) y z e f h s i j k r
  | "Y"%char => mkParams g m t x (Some v) z e f h s i j k r
  | "Z"%char => mkParams g m t x y (Some v) e f h s i j k r
  | "E"%char => mkParams g m t x y z (Some v) f h s i j k r
  | "F"%char => mkParams g m t x y z e (Some v) h s i j k r
  | "H"%char => mkParams g m t x y z e f (Some v) s i j k r
  | "S"%char => mkParams g m t x y z e f h (Some v) i j k r
  | "I"%char => mkParams g m t x y z e f h s (Some v) j k r
  | "J"%char => mkParams g m t x y z e f h s i (Some v) k r
  | "K"%char => mkParams g m t x y z e f h s i j (Some v) r
  | "R"%char => mkParams g m t x y z e f h s i j k (Some v)
  | _ => p
  end.

Record GCodeCommand : Set := mkCommand {
  type : CommandType;
  lineNumber : nat;
  nNumber : option float;
  params : Params;
  raw : string
}.

(** [[...].includes(param)] *)
Definition char_in (c : ascii) (l : list ascii) : bool :=
  existsb (Ascii.eqb c) l.

Definition code_letters : list ascii := ["G"; "M"; "T"]%char.
Definition value_letters : list ascii :=
  ["X"; "Y"; "Z"; "E"; "F"; "H"; "S"; "I"; "J"; "K"; "R"]%char.
Definition coordinate_letters : list ascii := ["X"; "Y"; "Z"; "E"]%char.

(** The chain of [if (code === ...) commandType = ...] for a [G] word. *)
Definition gType (code : float) (commandType : CommandType) : CommandType :=
  if strict_eq code 0 then G0
  else if strict_eq code 1 then G1
  else if strict_eq code 2 then G2
  else if strict_eq code 3 then G3
  else if strict_eq code 28 then G28
  else if strict_eq code 90 then G90
  else if strict_eq code 91 then G91
  else if strict_eq code 40 then G40
  else if strict_eq code 17 then G17
  else if strict_eq code 71 then G71
  else if strict_eq code 43 then G43
  else commandType.

(** The same chain for an [M] word. *)
Definition mType (code : float) (commandType : CommandType) : CommandType :=
  if strict_eq code 3 then M03
  else if strict_eq code 6 then M06
  else if strict_eq code 104 then M104
  else if strict_eq code 140 then M140
  else if strict_eq code 106 then M106
  else if strict_eq code 107 then M107
  else commandType.

(** The variables the loop of [parseCommand] updates. *)
Record LineState : Set := mkLineState {
  ls_params : Params;
  ls_nNumber : option float;
  ls_commandType : CommandType
}.

(** One iteration of the loop of [parseCommand], on [parts[i]]. *)
Definition processPart (st : LineState) (rawPart : string) : LineState :=
  let part := toUpperCase rawPart in
  if startsWith "N" part then
    mkLineState (ls_params st) (Some (parseInt (slice1 part))) (ls_commandType st)
  else
    let valueStr := slice1 part in
    let value := if includes "." valueStr then parseFloat valueStr else parseInt valueStr in
    if negb (isNaN value) then
      match first_char part with
      | Some param =>
          if char_in param code_letters then
            let code := parseInt (slice1 part) in
            let commandType :=
              if Ascii.eqb param "G" then gType code (ls_commandType st)
              else if Ascii.eqb param "M" then mType code (ls_commandType st)
              else T in
            mkLineState (set_param param code (ls_params st)) (ls_nNumber st) commandType
          else if char_in param value_letters then
            let params1 := set_param param value (ls_params st) in
            if char_in param coordinate_letters && falsy_opt (pG params1)
            then mkLineState (set_param "G" 1 params1)
                   (ls_nNumber st) G1
            else mkLineState params1 (ls_nNumber st) (ls_commandType st)
          else st
      | None => st
      end
    else st.

Definition parseCommand (line : string) (lineNumber : nat) : option GCodeCommand :=
  let cleanLine := trim (split_first ";" line) in
  if isEmpty cleanLine then None
  else
    let parts := split_ws cleanLine in
    let st := fold_left processPart parts (mkLineState noParams None OTHER) in
    Some (mkCommand (ls_commandType st) lineNumber (ls_nNumber st) (ls_params st) line).

Record Stats : Set := mkStats {
  totalLines : nat;
  validCommands : nat;
  maxX : float; maxY : float; maxZ : float;
  minX : float; minY : float; minZ : float
}.

Record ParseResult : Set := mkParseResult {
  commands : list GCodeCommand;
  stats : Stats
}.

(** The variables the [forEach] of [parseGCode] updates. *)
Record Acc : Set := mkAcc {
  a_commands : list GCodeCommand;
  a_validCommands : nat;
  a_maxX : float; a_maxY : float; a_maxZ : float;
  a_minX : float; a_minY : float; a_minZ : float
}.

Definition initAcc : Acc :=
  mkAcc [] 0 neg_infinity neg_infinity neg_infinity infinity infinity infinity.

(** [if (V !== undefined) { max = Math.max(max, V) }] *)
Definition updMax (cur : float) (v : option float) : float :=
  match v with
  | Some a => Math_max cur a
  | None => cur
  end.

Definition updMin (cur : float) (v : option float) : float :=
  match v with
  | Some a => Math_min cur a
  | None => cur
  end.

(** The callback of [lines.forEach] in [parseGCode]; [index] is 0-based. *)
Definition parseStep (acc : Acc) (line : string) (index : nat) : Acc :=
  match parseCommand line (index + 1) with
  | Some command =>
      let p := params command in
      mkAcc (a_commands acc ++ [command]) (a_validCommands acc + 1)
        (updMax (a_maxX acc) (pX p)) (updMax (a_maxY acc) (pY p))
        (updMax (a_maxZ acc) (pZ p))
        (updMin (a_minX acc) (pX p)) (updMin (a_minY acc) (pY p))
        (updMin (a_minZ acc) (pZ p))
  | None => acc
  end.

Fixpoint forEach_lines (acc : Acc) (lines : list string) (index : nat) : Acc :=
  match lines with
  | [] => acc
  | line :: rest => forEach_lines (parseStep acc line index) rest (S index)
  end.

(** [m === -Infinity ? 0 : m] *)
Definition maxOrZero (m : float) : float :=
  if strict_eq m neg_infinity then PrimFloat.zero else m.

(** [m === Infinity ? 0 : m] *)
Definition minOrZero (m : float) : float :=
  if strict_eq m infinity then PrimFloat.zero else m.

Definition LF : ascii := ascii_of_nat 10.

Definition parseGCode (content : string) : ParseResult :=
  let lines := split_char LF content in
  let acc := forEach_lines initAcc lines 0 in
  mkParseResult (a_commands acc)
    (mkStats (List.length lines) (a_validCommands acc)
       (maxOrZero (a_maxX acc)) (maxOrZero (a_maxY acc)) (maxOrZero (a_maxZ acc))
       (minOrZero (a_minX acc)) (minOrZero (a_minY acc)) (minOrZero (a_minZ acc))).

(** ** [validateGCode] *)

Inductive ValidationError : Set :=
| SyntaxError (line : nat) (cleanLine : string)
| InvalidPart (line : nat) (part : string)
| MissingContent (line : nat) (cleanLine : string).

Fixpoint all_chars (f : ascii -> bool) (s : string) : bool :=
  match s with
  | EmptyString => true
  | String c r => f c && all_chars f r
  end.

Fixpoint drop_while (f : ascii -> bool) (s : string) : string :=
  match s with
  | EmptyString => EmptyString
  | String c r => if f c then drop_while f r else s
  end.

(** [(.+)$] on [s]: one character or more, none of them a line terminator. *)
Definition dot_plus_end (s : string) : bool :=
  negb (isEmpty s) && all_chars (fun c => negb (isLineTerminator c)) s.

(** [\s+(.+)$] at the head of [s], the white space taken greedily and given
    back one character at a time; the text captured by [(.+)]. *)
Fixpoint ws_then_rest (s : string) : option string :=
  match s with
  | EmptyString => None
  | String c r =>
      if isWhiteSpace c then
        match ws_then_rest r with
        | Some rest => Some rest
        | None => if dot_plus_end r then Some r else None
        end
      else None
  end.

(** [cleanLine.match(/^(N\d+\s+)?(.+)$/)]: the second group of the match. *)
Definition linePattern (cleanLine : string) : option string :=
  let withIndex :=
    match cleanLine with
    | String "N"%char r =>
        match r with
        | String d _ =>
            if isDigit d then ws_then_rest (drop_while isDigit r) else None
        | EmptyString => None
        end
    | _ => None
    end in
  match withIndex with
  | Some rest => Some rest
  | None => if dot_plus_end cleanLine then Some cleanLine else None
  end.

(** [/^[GMT]\d+$/.test(part)] *)
Definition codePattern (part : string) : bool :=
  match part with
  | String c r => char_in c code_letters && negb (isEmpty r) && all_chars isDigit r
  | EmptyString => false
  end.

Definition drop_sign (s : string) : string :=
  match s with
  | String "-"%char r => r
  | String "+"%char r => r
  | _ => s
  end.

Definition drop_dot (s : string) : string :=
  match s with
  | String "."%char r => r
  | _ => s
  end.

(** [/^[XYZEFHSIJKR][-+]?\d*\.?\d*$/.test(part)] *)
Definition valuePattern (part : string) : bool :=
  match part with
  | String c r =>
      char_in c value_letters
      && isEmpty (drop_while isDigit (drop_dot (drop_while isDigit (drop_sign r))))
  | EmptyString => false
  end.

(** The [for (const part of parts)] loop: the first part that matches
    neither pattern, if any. *)
Fixpoint firstInvalidPart (parts : list string) : option string :=
  match parts with
  | [] => None
  | part :: rest =>
      if codePattern part || valuePattern part then firstInvalidPart rest
      else Some part
  end.

(** The callback of [lines.forEach] in [validateGCode]: the errors it pushes. *)
Definition validateLine (line : string) (index : nat) : list ValidationError :=
  let cleanLine := trim (split_first ";" line) in
  if isEmpty cleanLine then []
  else
    match linePattern cleanLine with
    | None => [SyntaxError (index + 1) cleanLine]
    | Some instructionPart =>
        let parts := split_ws instructionPart in
        match firstInvalidPart parts with
        | Some part => [InvalidPart (index + 1) part]
        | None =>
            match parts with
            | [] => [MissingContent (index + 1) cleanLine]
            | _ :: _ => []
            end
        end
    end.

Fixpoint validateLines (lines : list string) (index : nat) : list ValidationError :=
  match lines with
  | [] => []
  | line :: rest => validateLine line index ++ validateLines rest (S index)
  end.

Record ValidationResult : Set := mkValidation {
  isValid : bool;
  errors : list ValidationError
}.

Definition validateGCode (content : string) : ValidationResult :=
  let errs := validateLines (split_char LF content) 0 in
  mkValidation (match errs with [] => true | _ => false end) errs.

(** ** Notions used to state properties of the parser *)

(** The command [c] with its [raw] text replaced by [r]. *)
Definition withRaw (r : string) (c : GCodeCommand) : GCodeCommand :=
  mkCommand (type c) (lineNumber c) (nNumber c) (params c) r.

(** The words of a line as the loop of [parseCommand] sees them. *)
Definition wordsOf (line : string) : list string :=
  map toUpperCase (split_ws (trim (split_first ";" line))).

(** [JS.parseFloat] or [JS.parseInt] of the text after the letter of a word,
    as [parseCommand] chooses between them. *)
Definition wordValue (word : string) : float :=
  let valueStr := slice1 word in
  if includes "." valueStr then parseFloat valueStr else parseInt valueStr.

(** A word that sets a coordinate: one of X, Y, Z, E with a number. *)
Definition isCoordinateWord (word : string) : bool :=
  match first_char word with
  | Some c => char_in c coordinate_letters && negb (isNaN (wordValue word))
  | None => false
  end.

(** A word that starts with one of the code letters G, M, T. *)
Definition isCodeWord (word : string) : bool :=
  match first_char word with
  | Some c => char_in c code_letters
  | None => false
  end.

(** The three axes of the statistics. *)
Inductive Axis : Set := AxisX | AxisY | AxisZ.

Definition coordinate (a : Axis) (p : Params) : option float :=
  match a with
  | AxisX => pX p
  | AxisY => pY p
  | AxisZ => pZ p
  end.

Definition statMax (a : Axis) (s : Stats) : float :=
  match a with
  | AxisX => maxX s
  | AxisY => maxY s
  | AxisZ => maxZ s
  end.

Definition statMin (a : Axis) (s : Stats) : float :=
  match a with
  | AxisX => minX s
  | AxisY => minY s
  | AxisZ => minZ s
  end.

Definition accMax (a : Axis) (acc : Acc) : float :=
  match a with
  | AxisX => a_maxX acc
  | AxisY => a_maxY acc
  | AxisZ => a_maxZ acc
  end.

Definition accMin (a : Axis) (acc : Acc) : float :=
  match a with
  | AxisX => a_minX acc
  | AxisY => a_minY acc
  | AxisZ => a_minZ acc
  end.

(** The values of a coordinate over the commands in which it appears. *)
Definition valuesOf (a : Axis) (cmds : list GCodeCommand) : list float :=
  flat_map (fun c => match coordinate a (params c) with
                     | Some v => [v]
                     | None => []
                     end) cmds.

(** [m] is a maximum, resp. a minimum, of the numbers [l]. *)
Definition isMaxOf (m : float) (l : list float) : Prop :=
  In m l /\ forall v, In v l -> le v m.

Definition isMinOf (m : float) (l : list float) : Prop :=
  In m l /\ forall v, In v l -> le m v.

(** No coordinate of [p] is NaN. *)
Definition coordsValid (p : Params) : Prop :=
  forall a v, coordinate a p = Some v -> notNaN v.

(** The state of the loop of [parseCommand] while no G, M or T word has been
    read: either untouched by a coordinate, or defaulted to the feed move. *)
Definition defaultState (st : LineState) : Prop :=
  (ls_commandType st = OTHER /\ pG (ls_params st) = None)
  \/ (ls_commandType st = G1 /\ pG (ls_params st) = Some 1%float).

(** The value a parameter letter of [value_letters] holds in [p]. *)
Definition valueParam (c : ascii) (p : Params) : option float :=
  match c with
  | "X"%char => pX p
  | "Y"%char => pY p
  | "Z"%char => pZ p
  | "E"%char => pE p
  | "F"%char => pF p
  | "H"%char => pH p
  | "S"%char => pS p
  | "I"%char => pI p
  | "J"%char => pJ p
  | "K"%char => pK p
  | "R"%char => pR p
  | _ => None
  end.

(** No parameter of [p] other than the codes G, M and T is NaN. *)
Definition valuesValid (p : Params) : Prop :=
  forall c v, valueParam c p = Some v -> notNaN v.

(** The line an error is reported for. *)
Definition errLine (e : ValidationError) : nat :=
  match e with
  | SyntaxError n _ => n
  | InvalidPart n _ => n
  | MissingContent n _ => n
  end.

(** The error [e] reported [k] lines further down. *)
Definition shiftError (k : nat) (e : ValidationError) : ValidationError :=
  match e with
  | SyntaxError n t => SyntaxError (k + n) t
  | InvalidPart n t => InvalidPart (k + n) t
  | MissingContent n t => MissingContent (k + n) t
  end.

(** The command [c] read [k] lines further down. *)
Definition shiftCommand (k : nat) (c : GCodeCommand) : GCodeCommand :=
  mkCommand (type c) (k + lineNumber c) (nNumber c) (params c) (raw c).

End Parser.

(* ================================================================== *)
(** * gcodePathGenerator.ts: data *)
(* ================================================================== *)

(** The data exchanged between the path generator and the viewer, over a
    type [N] of numbers. *)
Module Path.

Inductive MoveType : Set := G0 | G1 | G2 | G3.

Definition MoveType_eqb (a b : MoveType) : bool :=
  match a, b with
  | G0, G0 | G1, G1 | G2, G2 | G3, G3 => true
  | _, _ => false
  end.

Definition isArc (t : MoveType) : bool :=
  match t with
  | G2 | G3 => true
  | _ => false
  end.

(** [THREE.Vector3] *)
Record Vector3 (N : Type) : Type := mkVector3 { x : N; y : N; z : N }.

(** [PathPoint['params']] *)
Record ArcParams (N : Type) : Type := mkArcParams {
  I : option N; J : option N; K : option N; F : option N
}.

Record PathPoint (N : Type) : Type := mkPoint {
  position : Vector3 N;
  type : MoveType;
  feedrate : option N;
  extrusion : option N;
  lineNumber : nat;
  params : option (ArcParams N)
}.

(** [PathSegment]; its [type] field is called [segType] here. *)
Record PathSegment (N : Type) : Type := mkSegment {
  points : list (PathPoint N);
  segType : MoveType;
  isExtruding : bool
}.

End Path.

(* ================================================================== *)
(** * gcodePathGenerator.ts: class GCodePathGenerator *)
(* ================================================================== *)

Module PathGen.
Import JS Path.

Definition Vec := Vector3 float.
Definition Point := PathPoint float.
Definition Segment := PathSegment float.

(** The private fields of a [GCodePathGenerator]. *)
Record State : Type := mkState {
  currentPosition : Vec;
  currentExtrusion : float;
  isAbsolutePositioning : bool;
  isAbsoluteExtrusion : bool;
  segments : list Segment;
  currentSegment : option Segment;
  currentFeedrate : float
}.

Definition origin : Vec := mkVector3 0%float 0%float 0%float.

(** [reset()], which leaves the generator as its constructor does. *)
Definition reset (this : State) : State :=
  mkState origin 0 true true [] None 0.

(** [a.distanceTo(b)] *)
Definition distanceTo (a b : Vec) : float :=
  let dx := (x a - x b)%float in
  let dy := (y a - y b)%float in
  let dz := (z a - z b)%float in
  PrimFloat.sqrt (dx * dx + dy * dy + dz * dz)%float.

(** [calculateNewPosition(command)] *)
Definition calculateNewPosition (this : State) (command : Parser.GCodeCommand) : Vec :=
  let p := Parser.params command in
  let c := currentPosition this in
  if isAbsolutePositioning this then
    mkVector3
      (match Parser.pX p with Some v => v | None => x c end)
      (match Parser.pY p with Some v => v | None => y c end)
      (match Parser.pZ p with Some v => v | None => z c end)
  else
    mkVector3
      (match Parser.pX p with Some v => (x c + v)%float | None => x c end)
      (match Parser.pY p with Some v => (y c + v)%float | None => y c end)
      (match Parser.pZ p with Some v => (z c + v)%float | None => z c end).

(** [calculateNewExtrusion(command)] *)
Definition calculateNewExtrusion (this : State) (command : Parser.GCodeCommand) : float :=
  match Parser.pE (Parser.params command) with
  | None => currentExtrusion this
  | Some e =>
      if isAbsoluteExtrusion this then e
      else (currentExtrusion this + e)%float
  end.

Definition emptySegment (t : MoveType) (extruding : bool) : Segment :=
  mkSegment [] t extruding.

(** [segment.points.push(p)] *)
Definition push (p : Point) (s : Segment) : Segment :=
  mkSegment (points s ++ [p]) (segType s) (isExtruding s).

(** The block "check whether a new segment is needed" shared by
    [processLinearMove] and [processArcMove]: the list of closed segments
    and the open segment it leaves. *)
Definition ensureSegment (this : State) (t : MoveType) (extruding : bool)
  : list Segment * Segment :=
  match currentSegment this with
  | None => (segments this, emptySegment t extruding)
  | Some cs =>
      if negb (MoveType_eqb (segType cs) t)
         || negb (Bool.eqb (isExtruding cs) extruding)
      then
        (match points cs with
         | [] => segments this
         | _ :: _ => segments this ++ [cs]
         end,
         emptySegment t extruding)
      else (segments this, cs)
  end.

(** [processLinearMove(command)]; [t] is [command.type as MoveType], which
    the dispatch of [processCommand] fixes to [G0] or [G1]. *)
Definition processLinearMove (t : MoveType) (this : State)
    (command : Parser.GCodeCommand) : State :=
  let newPosition := calculateNewPosition this command in
  let newExtrusion := calculateNewExtrusion this command in
  let extruding := gt newExtrusion (currentExtrusion this) in
  let point := mkPoint newPosition t (Some (currentFeedrate this))
                 (Some newExtrusion) (Parser.lineNumber command) None in
  let (segs, seg) := ensureSegment this t extruding in
  mkState newPosition newExtrusion
    (isAbsolutePositioning this) (isAbsoluteExtrusion this)
    segs (Some (push point seg)) (currentFeedrate this).

(** The end position an arc command resolves to. *)
Definition arcEndPosition (this : State) (command : Parser.GCodeCommand) : Vec :=
  let p := Parser.params command in
  let s := currentPosition this in
  mkVector3
    (match Parser.pX p with
     | Some v => if isAbsolutePositioning this then v else (x s + v)%float
     | None => x s
     end)
    (match Parser.pY p with
     | Some v => if isAbsolutePositioning this then v else (y s + v)%float
     | None => y s
     end)
    (match Parser.pZ p with
     | Some v => if isAbsolutePositioning this then v else (z s + v)%float
     | None => z s
     end).

(** The centre an arc command resolves to: the start plus [(I, J, K)]. *)
Definition arcCenter (this : State) (command : Parser.GCodeCommand) : Vec :=
  let p := Parser.params command in
  let s := currentPosition this in
  mkVector3 (x s + or_zero (Parser.pI p))%float
            (y s + or_zero (Parser.pJ p))%float
            (z s + or_zero (Parser.pK p))%float.

(** [endPosition.x === startPosition.x && endPosition.y === startPosition.y] *)
Definition arcSameXY (this : State) (command : Parser.GCodeCommand) : bool :=
  let s := currentPosition this in
  let e := arcEndPosition this command in
  strict_eq (x e) (x s) && strict_eq (y e) (y s).

(** [radius < 0.001] *)
Definition arcRadiusTooSmall (this : State) (command : Parser.GCodeCommand) : bool :=
  (distanceTo (arcCenter this command) (currentPosition this) <? 0x1.0624dd2f1a9fcp-10)%float.

Definition arcParamsOf (command : Parser.GCodeCommand) : ArcParams float :=
  let p := Parser.params command in
  mkArcParams (Parser.pI p) (Parser.pJ p) (Parser.pK p) None.

(** [lastPoint.params = arcParams] on the last point of a list. *)
Fixpoint setLastParams (a : ArcParams float) (pts : list Point) : list Point :=
  match pts with
  | [] => []
  | [p] => [mkPoint (position p) (type p) (feedrate p) (extrusion p)
              (lineNumber p) (Some a)]
  | p :: rest => p :: setLastParams a rest
  end.

(** [processArcMove(command)]; [t] is [command.type as MoveType], which the
    dispatch of [processCommand] fixes to [G2] or [G3]. *)
Definition processArcMove (t : MoveType) (this : State)
    (command : Parser.GCodeCommand) : State :=
  let startPosition := currentPosition this in
  let endPosition := arcEndPosition this command in
  if arcSameXY this command then this
  else if arcRadiusTooSmall this command then this
  else
    let newExtrusion := calculateNewExtrusion this command in
    let extruding := gt newExtrusion (currentExtrusion this) in
    let arcParams := arcParamsOf command in
    let (segs, seg) := ensureSegment this t extruding in
    let seg1 :=
      match points seg with
      | [] =>
          push (mkPoint startPosition t (Some (currentFeedrate this))
                  (Some (currentExtrusion this)) (Parser.lineNumber command)
                  (Some arcParams)) seg
      | _ :: _ =>
          mkSegment (setLastParams arcParams (points seg)) (segType seg)
            (isExtruding seg)
      end in
    let endPoint := mkPoint endPosition t (Some (currentFeedrate this))
                      (Some newExtrusion) (Parser.lineNumber command)
                      (Some arcParams) in
    mkState endPosition newExtrusion
      (isAbsolutePositioning this) (isAbsoluteExtrusion this)
      segs (Some (push endPoint seg1)) (currentFeedrate this).

(** [processHomeMove(command)] *)
Definition processHomeMove (this : State) (command : Parser.GCodeCommand) : State :=
  let p := Parser.params command in
  let h0 := mkVector3 0%float 0%float 0%float in
  let h1 := match Parser.pX p with
            | Some _ => mkVector3 0%float (y h0) (z h0)
            | None => h0
            end in
  let h2 := match Parser.pY p with
            | Some _ => mkVector3 (x h1) 0%float (z h1)
            | None => h1
            end in
  let homePosition :=
    match Parser.pZ p with
    | Some _ => mkVector3 (x h2) (y h2) 0%float
    | None => h2
    end in
  let point := mkPoint homePosition G0 (Some (currentFeedrate this)) None
                 (Parser.lineNumber command) None in
  let segs :=
    match currentSegment this with
    | Some cs =>
        match points cs with
        | [] => segments this
        | _ :: _ => segments this ++ [cs]
        end
    | None => segments this
    end in
  mkState homePosition (currentExtrusion this)
    (isAbsolutePositioning this) (isAbsoluteExtrusion this)
    segs (Some (mkSegment [point] G0 false)) (currentFeedrate this).

Definition setAbsolutePositioning (b : bool) (this : State) : State :=
  mkState (currentPosition this) (currentExtrusion this) b
    (isAbsoluteExtrusion this) (segments this) (currentSegment this)
    (currentFeedrate this).

Definition setFeedrate (f : float) (this : State) : State :=
  mkState (currentPosition this) (currentExtrusion this)
    (isAbsolutePositioning this) (isAbsoluteExtrusion this) (segments this)
    (currentSegment this) f.

(** The [switch] of [processCommand]. *)
Definition dispatch (this : State) (command : Parser.GCodeCommand) : State :=
  match Parser.type command with
  | Parser.G0 => processLinearMove G0 this command
  | Parser.G1 => processLinearMove G1 this command
  | Parser.G2 => processArcMove G2 this command
  | Parser.G3 => processArcMove G3 this command
  | Parser.G90 => setAbsolutePositioning true this
  | Parser.G91 => setAbsolutePositioning false this
  | Parser.G28 => processHomeMove this command
  | _ => this
  end.

(** [processCommand(command)]: the [switch], then the feedrate update. *)
Definition processCommand (this : State) (command : Parser.GCodeCommand) : State :=
  let this1 := dispatch this command in
  match Parser.pF (Parser.params command) with
  | Some f => setFeedrate f this1
  | None => this1
  end.

(** The state after the loop of [generatePath]. *)
Definition run (this : State) (commands : list Parser.GCodeCommand) : State :=
  fold_left processCommand commands (reset this).

(** The final push of the open segment. *)
Definition flush (this : State) : list Segment :=
  match currentSegment this with
  | Some last =>
      match points last with
      | [] => segments this
      | _ :: _ => segments this ++ [last]
      end
  | None => segments this
  end.

(** [generatePath(commands)] on a generator in state [this]: the returned
    segment list. *)
Definition generatePath (this : State) (commands : list Parser.GCodeCommand)
  : list Segment :=
  flush (run this commands).

(** The generator [new GCodePathGenerator()] builds. *)
Definition newGenerator : State := mkState origin 0 true true [] None 0.

(** ** Predicates on segment lists *)

(** Within a segment, every point has the segment's type. *)
Definition typeConstant (s : Segment) : Prop :=
  forall p, In p (points s) -> type p = segType s.

(** The extrusion amount the generator holds after emitting [pts], when it
    held [prev] before: only the point of a home instruction carries none. *)
Definition extrusionAfter (prev : float) (pts : list Point) : float :=
  fold_left (fun e p => match extrusion p with Some e' => e' | None => e end)
    pts prev.

(** [flag] is the extruding flag computed for a point: for a move to
    extrusion [e] from extrusion [prev] it is [e > prev]; for the point of a
    home instruction it is [false]. *)
Definition pointFlag (flag : bool) (prev : float) (p : Point) : Prop :=
  match extrusion p with
  | Some e => flag = gt e prev
  | None => flag = false
  end.

(** [flag] is the flag computed for each point of [pts], emitted in this
    order from extrusion [prev]. *)
Fixpoint flagsComputed (flag : bool) (prev : float) (pts : list Point) : Prop :=
  match pts with
  | [] => True
  | p :: rest =>
      pointFlag flag prev p
      /\ flagsComputed flag (extrusionAfter prev [p]) rest
  end.

(** The flag of segment [s], emitted from extrusion [prev], is the one
    computed for each of its points; the leading point of an arc segment
    repeats the extrusion the arc starts from. *)
Definition segmentFlag (prev : float) (s : Segment) : Prop :=
  if isArc (segType s) then
    match points s with
    | [] => True
    | leading :: rest =>
        extrusion leading = Some prev
        /\ flagsComputed (isExtruding s) prev rest
    end
  else flagsComputed (isExtruding s) prev (points s).

(** [segmentFlag] for every segment of a list, emitted in this order. *)
Fixpoint flagsThread (prev : float) (segs : list Segment) : Prop :=
  match segs with
  | [] => True
  | s :: rest =>
      segmentFlag prev s /\ flagsThread (extrusionAfter prev (points s)) rest
  end.

(** Two adjacent segments differ in type or in extruding flag. *)
Definition differ (s1 s2 : Segment) : Prop :=
  segType s1 <> segType s2 \/ isExtruding s1 <> isExtruding s2.

(** The first point of [s] is the point of a home instruction. *)
Definition opensWithHome (s : Segment) : Prop :=
  match points s with
  | p :: _ => extrusion p = None
  | [] => False
  end.

Definition adjacent (R : Segment -> Segment -> Prop) (segs : list Segment) : Prop :=
  forall i s1 s2,
    nth_error segs i = Some s1 -> nth_error segs (S i) = Some s2 -> R s1 s2.

(** The points of an arc segment: at least two, each with arc parameters,
    the last two with the same ones. *)
Definition arcShape (s : Segment) : Prop :=
  isArc (segType s) = true ->
  exists pre leading trailing a,
    points s = pre ++ [leading; trailing]
    /\ params leading = Some a /\ params trailing = Some a
    /\ forall p, In p pre -> params p <> None.

(** The points of an arc segment come in (leading, trailing) pairs with
    identical arc parameters. *)
Fixpoint paired (pts : list Point) : Prop :=
  match pts with
  | [] => True
  | leading :: trailing :: rest =>
      params leading = params trailing /\ paired rest
  | [_] => False
  end.

(** What holds of a segment emitted from extrusion [prev] just after
    segment [before]. *)
Definition segmentOk (prev : float) (before : option Segment) (s : Segment) : Prop :=
  points s <> []
  /\ typeConstant s
  /\ segmentFlag prev s
  /\ arcShape s
  /\ match before with
     | Some s0 => differ s0 s \/ opensWithHome s
     | None => True
     end.

Fixpoint pathOk (prev : float) (before : option Segment) (segs : list Segment)
  : Prop :=
  match segs with
  | [] => True
  | s :: rest =>
      segmentOk prev before s
      /\ pathOk (extrusionAfter prev (points s)) (Some s) rest
  end.

(** The closed segments followed by the open one. *)
Definition allSegments (this : State) : list Segment :=
  segments this ++ match currentSegment this with
                   | Some c => [c]
                   | None => []
                   end.

(** The extrusion amount after emitting the segments [segs] from [prev]. *)
Definition extrusionAfterAll (prev : float) (segs : list Segment) : float :=
  fold_left (fun e s => extrusionAfter e (points s)) segs prev.

(** The last segment of [segs], or [before] when there is none. *)
Definition lastSegment (before : option Segment) (segs : list Segment)
  : option Segment :=
  fold_left (fun _ s => Some s) segs before.

(** [lastPoint.params = arcParams] on one point. *)
Definition withParams (a : ArcParams float) (p : Point) : Point :=
  mkPoint (position p) (type p) (feedrate p) (extrusion p) (lineNumber p) (Some a).

(** The invariant of the generator between two commands. *)
Definition invariant (this : State) : Prop :=
  (currentSegment this = None -> segments this = [])
  /\ pathOk 0 None (allSegments this)
  /\ currentExtrusion this = extrusionAfterAll 0 (allSegments this).

(** ** Further notions on states and segment lists *)

(** The source lines of the points of a segment list, in order. *)
Definition lineNumbers (segs : list Segment) : list nat :=
  flat_map (fun s => map (@lineNumber float) (points s)) segs.

(** [k] points may come from command [c]: one from a linear move or a home
    instruction, up to two from an arc, none from anything else. *)
Definition emitCount (c : Parser.GCodeCommand) (k : nat) : Prop :=
  match Parser.type c with
  | Parser.G0 | Parser.G1 | Parser.G28 => k = 1
  | Parser.G2 | Parser.G3 => k <= 2
  | _ => k = 0
  end.

(** The line numbers [counts] copies of each command give. *)
Definition repeatedLines (commands : list Parser.GCodeCommand) (counts : list nat)
  : list nat :=
  List.concat (map (fun ck => repeat (Parser.lineNumber (fst ck)) (snd ck))
            (combine commands counts)).

(** The position of the last of the points [pts], or [prev] when there is
    none. *)
Definition positionAfter (prev : Vec) (pts : list Point) : Vec :=
  fold_left (fun _ p => position p) pts prev.

Definition positionAfterAll (prev : Vec) (segs : list Segment) : Vec :=
  fold_left (fun v s => positionAfter v (points s)) segs prev.

(** Every arc segment of [segs] starts at the position the path had reached
    before it, [prev] at the start. *)
Fixpoint arcsLinked (prev : Vec) (segs : list Segment) : Prop :=
  match segs with
  | [] => True
  | s :: rest =>
      (isArc (segType s) = true ->
       match points s with
       | leading :: _ => position leading = prev
       | [] => True
       end)
      /\ arcsLinked (positionAfter prev (points s)) rest
  end.

(** The generator stands where its path ends, and its arc segments are
    linked to what precedes them. *)
Definition linked (this : State) : Prop :=
  arcsLinked origin (allSegments this)
  /\ currentPosition this = positionAfterAll origin (allSegments this).


(** A command that always emits a point, resp. that may emit one. *)
Definition alwaysEmits (c : Parser.GCodeCommand) : bool :=
  match Parser.type c with
  | Parser.G0 | Parser.G1 | Parser.G28 => true
  | _ => false
  end.

Definition mayEmit (c : Parser.GCodeCommand) : bool :=
  match Parser.type c with
  | Parser.G0 | Parser.G1 | Parser.G2 | Parser.G3 | Parser.G28 => true
  | _ => false
  end.

End PathGen.

(* ================================================================== *)
(** * GCodeViewer.vue: calculateAnimationFrames *)
(* ================================================================== *)

(** The synthesizer computes with square roots, ceilings and trigonometric
    functions; its numbers are modelled as real numbers, so that what is
    proved about it is the arithmetic the code intends, up to the rounding of
    binary64. *)
Module Viewer.
Import Path.
Local Open Scope R_scope.

Definition Vec := Vector3 R.
Definition Point := PathPoint R.
Definition Segment := PathSegment R.

Record AnimationFrame : Type := mkFrame {
  fposition : Vec;
  segmentIndex : nat;
  pointIndex : nat;
  time : R
}.

(** [a.distanceTo(b)] on [THREE.Vector3] *)
Definition distanceTo (a b : Vec) : R :=
  let dx := x a - x b in
  let dy := y a - y b in
  let dz := z a - z b in
  sqrt (dx * dx + dy * dy + dz * dz).

(** [a.distanceTo(b)] on [THREE.Vector2] *)
Definition distanceTo2 (a b : R * R) : R :=
  let dx := fst a - fst b in
  let dy := snd a - snd b in
  sqrt (dx * dx + dy * dy).

(** [Math.max(lo, Math.ceil(v))], an integer. *)
Definition maxCeil (lo : Z) (v : R) : Z := Z.max lo (Zceil v).

(** The indices [0, 1, ..., n] of a loop [for (i = 0; i <= n; i++)]. *)
Definition upto (n : Z) : list nat := seq 0 (S (Z.to_nat n)).

(** The variables the [forEach] of [calculateAnimationFrames] updates. *)
Record Synth : Type := mkSynth {
  frames : list AnimationFrame;
  currentTime : R;
  lastPosition : option Vec
}.

Section Synthesizer.

(** [Math.atan2(y, x)] *)
Variable atan2 : R -> R -> R.

(** [new THREE.EllipseCurve(aX, aY, xRadius, yRadius, aStartAngle,
    aEndAngle, aClockwise, 0).getPoint(t)], of the three.js library. *)
Variable ellipsePoint : R -> R -> R -> R -> R -> R -> bool -> R -> R * R.

(** [playbackSpeed.value], in millimetres per minute. *)
Variable playbackSpeed : R.

Definition speedInMmPerSecond : R := playbackSpeed / 60.

(** [p1 + (p2 - p1) * t] on each axis. *)
Definition lerp (p1 p2 : Vec) (t : R) : Vec :=
  mkVector3 (x p1 + (x p2 - x p1) * t)
            (y p1 + (y p2 - y p1) * t)
            (z p1 + (z p2 - z p1) * t).

(** The frames a straight pair pushes: the loop
    [for (let i = 0; i <= numFrames; i++)] of the branch "直线". *)
Definition linearFrames (p1 p2 : Vec) (segIdx ptIdx : nat) (now : R)
  : list AnimationFrame :=
  let segmentLength := distanceTo p1 p2 in
  let numFrames := maxCeil 10 (segmentLength * 2) in
  let frameTime := segmentLength / speedInMmPerSecond / IZR numFrames in
  map (fun i =>
         let t := INR i / IZR numFrames in
         mkFrame (lerp p1 p2 t) segIdx ptIdx (now + frameTime * INR i))
      (upto numFrames).

(** The branch "直线" for the pair [(p1, p2)]. *)
Definition linearPair (p1 p2 : Vec) (segIdx ptIdx : nat) (s : Synth) : Synth :=
  mkSynth (frames s ++ linearFrames p1 p2 segIdx ptIdx (currentTime s))
          (currentTime s + distanceTo p1 p2 / speedInMmPerSecond)
          (Some (mkVector3 (x p2) (y p2) (z p2))).

(** The signed sweep of an arc from [startAngle] to [endAngle]. *)
Definition sweep (isClockwise : bool) (startAngle endAngle : R) : R :=
  let angleDiff := endAngle - startAngle in
  if isClockwise
  then if Rle_dec 0 angleDiff then angleDiff - PI * 2 else angleDiff
  else if Rle_dec angleDiff 0 then angleDiff + PI * 2 else angleDiff.

(** [sum of points[i].distanceTo(points[i - 1])] for [i >= 1]. *)
Fixpoint chordLength (pts : list (R * R)) : R :=
  match pts with
  | a :: (b :: _) as rest => distanceTo2 b a + chordLength rest
  | _ => 0
  end.

(** The geometry of the arc of the pair [(p1, p2)] with offsets [(i, j)]:
    its curve and its length. *)
Definition arcCurve (isClockwise : bool) (i j : R) (p1 p2 : Vec) : R -> R * R :=
  let center := mkVector3 (x p1 + i) (y p1 + j) (z p1) in
  let radius := distanceTo p1 center in
  let startAngle := atan2 (y p1 - y center) (x p1 - x center) in
  let endAngle := atan2 (y p2 - y center) (x p2 - x center) in
  let angleDiff := sweep isClockwise startAngle endAngle in
  ellipsePoint (x center) (y center) radius radius startAngle
    (startAngle + angleDiff) isClockwise.

Definition arcLength (isClockwise : bool) (i j : R) (p1 p2 : Vec) : R :=
  let center := mkVector3 (x p1 + i) (y p1 + j) (z p1) in
  let radius := distanceTo p1 center in
  let startAngle := atan2 (y p1 - y center) (x p1 - x center) in
  let endAngle := atan2 (y p2 - y center) (x p2 - x center) in
  let angleDiff := sweep isClockwise startAngle endAngle in
  let numPoints := maxCeil 50 (Rabs angleDiff * radius * 2) in
  let curve := arcCurve isClockwise i j p1 p2 in
  chordLength (map (fun d => curve (INR d / IZR numPoints)) (upto numPoints)).

(** The frames an arc pair pushes (branch "弧线"). *)
Definition arcFrames (isClockwise : bool) (i j : R) (p1 p2 : Vec)
    (segIdx ptIdx : nat) (now : R) : list AnimationFrame :=
  let segmentLength := arcLength isClockwise i j p1 p2 in
  let curve := arcCurve isClockwise i j p1 p2 in
  let numFrames := maxCeil 50 (segmentLength * 2) in
  let frameTime := segmentLength / speedInMmPerSecond / IZR numFrames in
  map (fun k =>
         let t := INR k / IZR numFrames in
         let point := curve t in
         let zt := z p1 + (z p2 - z p1) * t in
         mkFrame (mkVector3 (fst point) (snd point) zt) segIdx ptIdx
           (now + frameTime * INR k))
      (upto numFrames).

Definition arcPair (isClockwise : bool) (i j : R) (p1 p2 : Vec)
    (segIdx ptIdx : nat) (s : Synth) : Synth :=
  mkSynth (frames s ++ arcFrames isClockwise i j p1 p2 segIdx ptIdx (currentTime s))
          (currentTime s + arcLength isClockwise i j p1 p2 / speedInMmPerSecond)
          (Some (mkVector3 (x p2) (y p2) (z p2))).

(** [q.params?.I ?? 0] and [q.params?.J ?? 0] *)
Definition offsetI (q : Point) : R :=
  match params q with
  | Some a => JS.nullish_zero 0 (I a)
  | None => 0
  end.

Definition offsetJ (q : Point) : R :=
  match params q with
  | Some a => JS.nullish_zero 0 (J a)
  | None => 0
  end.

(** The body shared by the two loops over pairs: [from] is the point
    whose arc offsets are read. *)
Definition pairStep (t : MoveType) (from : Point) (p1 p2 : Vec)
    (segIdx ptIdx : nat) (s : Synth) : Synth :=
  match t with
  | G2 => arcPair true (offsetI from) (offsetJ from) p1 p2 segIdx ptIdx s
  | G3 => arcPair false (offsetI from) (offsetJ from) p1 p2 segIdx ptIdx s
  | G0 | G1 => linearPair p1 p2 segIdx ptIdx s
  end.

(** The loop [for (pointIndex = 0; pointIndex < points.length - 1; ...)]
    over the consecutive pairs of a segment, from index [ptIdx] on. *)
Fixpoint multiPoint (t : MoveType) (pts : list Point) (segIdx ptIdx : nat)
    (s : Synth) : Synth :=
  match pts with
  | p1 :: (p2 :: _) as rest =>
      multiPoint t rest segIdx (S ptIdx)
        (pairStep t p1 (position p1) (position p2) segIdx ptIdx s)
  | _ => s
  end.

(** The callback of [segments.forEach]. *)
Definition segmentStep (s : Synth) (segment : Segment) (segIdx : nat) : Synth :=
  match points segment with
  | [p] =>
      match lastPosition s with
      | None =>
          mkSynth (frames s ++ [mkFrame (position p) segIdx 0 (currentTime s)])
                  (currentTime s) (Some (position p))
      | Some last => pairStep (segType segment) p last (position p) segIdx 0 s
      end
  | pts => multiPoint (segType segment) pts segIdx 0 s
  end.





End Synthesizer.

(** ** Notions used to state properties of the synthesizer *)






End Viewer.

(* ================================================================== *)
(** * The playback speed chosen for a path (GCodeViewer.vue) *)
(* ================================================================== *)

(** [calculateToolHeadDistance], [calculateAppropriateSpeed] and the part
    of [updatePath] that leads to the two assignments storing their result,
    over the real numbers.  The guards on [segment.points] and
    [point.position] are omitted: the types make them hold. *)

Module Calibration.
Import Path.
Local Open Scope R_scope.

Definition Vec := Vector3 R.
Definition Point := PathPoint R.
Definition Segment := PathSegment R.

Definition TARGET_ANIMATION_DURATION : R := 30.
Definition MIN_SPEED : R := 50.

(** The sums of [calculateToolHeadDistance], which are also the fields of
    the object it returns. *)
Record DistanceInfo : Type := mkInfo {
  totalDistance : R;
  xDistance : R;
  yDistance : R;
  zDistance : R;
  moveCount : nat;
  arcCount : nat;
  totalArcLength : R
}.

(** The variables the [forEach] of [calculateToolHeadDistance] updates. *)
Record Tally : Type := mkTally {
  info : DistanceInfo;
  lastPosition : option Vec
}.

(** [Math.abs] of the difference on each axis. *)
Definition deltas (a b : Vec) : R * R * R :=
  (Rabs (x a - x b), Rabs (y a - y b), Rabs (z a - z b)).

(** [Math.sqrt(dx * dx + dy * dy + dz * dz)] *)
Definition norm (d : R * R * R) : R :=
  let '(dx, dy, dz) := d in sqrt (dx * dx + dy * dy + dz * dz).

(** The block [if (distance > 0.01) { ... }]; [arc] tells the one of the
    arc segments from the one of the points. *)
Definition countMove (arc : bool) (d : R * R * R) (i : DistanceInfo) : DistanceInfo :=
  let '(dx, dy, dz) := d in
  let distance := norm d in
  if Rlt_dec (1 / 100) distance then
    mkInfo (totalDistance i + distance)
           (xDistance i + dx) (yDistance i + dy) (zDistance i + dz)
           (S (moveCount i))
           (if arc then S (arcCount i) else arcCount i)
           (if arc then totalArcLength i + distance else totalArcLength i)
  else i.

(** The callback of [segment.points.forEach]. *)
Definition pointStep (t : Tally) (point : Point) : Tally :=
  match lastPosition t with
  | None => mkTally (info t) (Some (position point))
  | Some last =>
      mkTally (countMove false (deltas (position point) last) (info t))
              (Some (position point))
  end.

(** The callback of [segments.forEach]. *)
Definition segmentStep (t : Tally) (segment : Segment) : Tally :=
  if isArc (segType segment) && (2 <=? List.length (points segment))%nat then
    match points segment with
    | startPoint :: _ =>
        let endPoint := last (points segment) startPoint in
        mkTally (countMove true (deltas (position endPoint) (position startPoint))
                   (info t))
                (lastPosition t)
    | [] => t
    end
  else fold_left pointStep (points segment) t.

(** [calculateToolHeadDistance(segments)], without [arcRatio]. *)
Definition calculateToolHeadDistance (segments : list Segment) : DistanceInfo :=
  info (fold_left segmentStep segments
          (mkTally (mkInfo 0 0 0 0 0 0 0) None)).

(** The field [arcRatio: totalArcLength / totalDistance] of the object
    returned; [None] stands for the NaN of 0 / 0. *)
Definition arcRatio (i : DistanceInfo) : option R :=
  if Req_EM_T (totalDistance i) 0 then None
  else Some (totalArcLength i / totalDistance i).

(** [a / b > c] and [a / b < c] on numbers: with a zero divisor (taken as
    +0, which the sums above are) the quotient is an infinity of the sign
    of [a], or NaN, which compares false. *)
Definition quotient_gt (a b c : R) : bool :=
  if Req_EM_T b 0 then (if Rlt_dec 0 a then true else false)
  else if Rlt_dec c (a / b) then true else false.

Definition quotient_lt (a b c : R) : bool :=
  if Req_EM_T b 0 then (if Rlt_dec a 0 then true else false)
  else if Rlt_dec (a / b) c then true else false.

(** The value of [speedMultiplier] after the two adjustments. *)
Definition speedMultiplier (i : DistanceInfo) : R :=
  let m := if quotient_gt (zDistance i) (totalDistance i) (3 / 10)
           then 1 * (8 / 10) else 1 in
  if quotient_lt (totalDistance i) (INR (moveCount i)) 1 then m * (12 / 10)
  else if quotient_lt (totalDistance i) (INR (moveCount i)) 5 then m * (11 / 10)
  else m.

(** [Math.ceil(v / 100) * 100] *)
Definition ceilToHundred (v : R) : R := IZR (Zceil (v / 100)) * 100.

(** [calculateAppropriateSpeed(distanceInfo)]; [maxSpeed] is
    [MAX_SPEED.value]. *)
Definition calculateAppropriateSpeed (maxSpeed : R) (i : DistanceInfo) : R :=
  let baseSpeed := totalDistance i / (TARGET_ANIMATION_DURATION / 60) in
  let requiredSpeed := baseSpeed * speedMultiplier i in
  let finalSpeed := Rmax (ceilToHundred requiredSpeed) MIN_SPEED in
  Rmin finalSpeed maxSpeed.

(** The variables the first [forEach] of [updatePath] updates. *)
Record Filter : Type := mkFilter {
  validSegments : list Segment;
  filterPosition : option Vec
}.

(** The callback of that [forEach]: a segment of one point becomes the move
    from the last position to that point, unless it is the first of all; a
    segment without points is left out. *)
Definition filterStep (f : Filter) (segment : Segment) : Filter :=
  match points segment with
  | [] => f
  | [point] =>
      match filterPosition f with
      | None =>
          mkFilter (validSegments f
                    ++ [mkSegment [point] (segType segment) (isExtruding segment)])
                   (Some (position point))
      | Some last =>
          let startPoint := mkPoint last (segType segment) (feedrate point)
                              (extrusion point) (lineNumber point) (params point) in
          let endPoint := mkPoint (position point) (segType segment) (feedrate point)
                            (extrusion point) (lineNumber point) (params point) in
          mkFilter (validSegments f
                    ++ [mkSegment [startPoint; endPoint] (segType segment)
                          (isExtruding segment)])
                   (Some (position point))
      end
  | first :: _ :: _ =>
      mkFilter (validSegments f ++ [segment])
               (Some (position (last (points segment) first)))
  end.

(** The segments [updatePath] stores in [state.parsedSegments]. *)
Definition parsedSegments (segments : list Segment) : list Segment :=
  validSegments (fold_left filterStep segments (mkFilter [] None)).

(** The two references [updatePath] assigns. *)
Record Speeds : Type := mkSpeeds {
  MAX_SPEED : R;
  playbackSpeed : R
}.

(** The references as the component creates them. *)
Definition initialSpeeds : Speeds := mkSpeeds 100000 10000.

(** [updatePath(segments)], as far as [MAX_SPEED] and [playbackSpeed] go;
    [ready] tells whether the scene is initialised.  Nothing is assigned
    when it is not, or when no segment is left, which throws; the calls
    into three.js in between are taken not to throw. *)
Definition updatePath (ready : bool) (s : Speeds) (segments : list Segment) : Speeds :=
  if negb ready then s
  else
    match parsedSegments segments with
    | [] => s
    | validSegments =>
        let distanceInfo := calculateToolHeadDistance validSegments in
        let appropriateSpeed :=
          calculateAppropriateSpeed (MAX_SPEED s) distanceInfo in
        mkSpeeds (ceilToHundred (appropriateSpeed * (15 / 10))) appropriateSpeed
    end.

(** ** Notions used to state properties of the sums *)

(** What holds of the sums between two steps. *)
Definition consistent (i : DistanceInfo) : Prop :=
  0 <= xDistance i <= totalDistance i
  /\ 0 <= yDistance i <= totalDistance i
  /\ 0 <= zDistance i <= totalDistance i
  /\ totalDistance i <= xDistance i + yDistance i + zDistance i
  /\ 0 <= totalArcLength i <= totalDistance i
  /\ (arcCount i <= moveCount i)%nat
  /\ (moveCount i = 0%nat -> totalDistance i = 0)
  /\ (moveCount i <> 0%nat -> INR (moveCount i) / 100 < totalDistance i).

(** The playback speed fits the slider. *)
Definition inRange (s : Speeds) : Prop :=
  MIN_SPEED <= playbackSpeed s <= MAX_SPEED s.

(** What holds of the variables of the first loop of [updatePath]: no
    segment kept is empty, only the first kept may hold a single point, and
    a last position is known as soon as a segment is kept. *)
Definition filtered (f : Filter) : Prop :=
  Forall (fun sg => points sg <> []) (validSegments f)
  /\ Forall (fun sg => (2 <= List.length (points sg))%nat) (tl (validSegments f))
  /\ (filterPosition f = None -> validSegments f = []).

End Calibration.

(* ================================================================== *)
(** * The store (stores/gcode.ts) *)
(* ================================================================== *)

(** The store holds four references and changes them only through its
    actions.  [parseContent] is asynchronous: it suspends once, at
    [await new Promise(resolve => setTimeout(resolve, 0))], so it is modelled
    by the part run before the suspension and the part run after it, between
    which other actions may run. *)

Module Store.
Import JS.

Record State : Set := mkStore {
  rawContent : string;
  parseResult : option Parser.ParseResult;
  validationErrors : list Parser.ValidationError;
  isParsing : bool
}.

(** The references as [defineStore] creates them. *)
Definition init : State := mkStore EmptyString None [] false.

(** [computed(() => validationErrors.value.length === 0)] *)
Definition isValid (st : State) : bool :=
  match validationErrors st with
  | [] => true
  | _ :: _ => false
  end.

(** [computed(() => parseResult.value?.stats ?? { totalLines: 0, ... })] *)
Definition stats (st : State) : Parser.Stats :=
  match parseResult st with
  | Some r => Parser.stats r
  | None => Parser.mkStats 0 0 0 0 0 0 0 0
  end.

(** [validateContent()]: the value returned and the state left. *)
Definition validateContent (st : State) : bool * State :=
  let result := Parser.validateGCode (rawContent st) in
  (Parser.isValid result,
   mkStore (rawContent st) (parseResult st) (Parser.errors result) (isParsing st)).

(** [setContent(content)] *)
Definition setContent (content : string) (st : State) : State :=
  snd (validateContent
         (mkStore content (parseResult st) (validationErrors st) (isParsing st))).

(** [parseContent()] up to its suspension: [None] when it returns [null]
    at once, the state it suspends in otherwise. *)
Definition parseContent_start (st : State) : option State :=
  if isEmpty (rawContent st) then None
  else Some (mkStore (rawContent st) (parseResult st) (validationErrors st) true).

(** [parseContent()] from its suspension on, the [finally] block included:
    the value the promise resolves to and the state left.  The path that
    [generatePath] returns is discarded. *)
Definition parseContent_resume (st : State) : option Parser.ParseResult * State :=
  let (ok, st1) := validateContent st in
  if negb ok then
    (None, mkStore (rawContent st1) (parseResult st1) (validationErrors st1) false)
  else
    let r := Parser.parseGCode (rawContent st1) in
    let _ := PathGen.generatePath PathGen.newGenerator (Parser.commands r) in
    (Some r, mkStore (rawContent st1) (Some r) (validationErrors st1) false).

(** [parseContent()] when nothing else runs while it is suspended. *)
Definition parseContent (st : State) : option Parser.ParseResult * State :=
  match parseContent_start st with
  | None => (None, st)
  | Some st1 => parseContent_resume st1
  end.

(** [clearContent()] *)
Definition clearContent (st : State) : State :=
  mkStore EmptyString None [] (isParsing st).

(** What may happen to the store, one step at a time. *)
Inductive Action : Set :=
| SetContent (content : string)
| ValidateContent
| ParseStart
| ParseResume
| ClearContent.

Definition step (st : State) (a : Action) : State :=
  match a with
  | SetContent content => setContent content st
  | ValidateContent => snd (validateContent st)
  | ParseStart =>
      match parseContent_start st with
      | Some st1 => st1
      | None => st
      end
  | ParseResume => snd (parseContent_resume st)
  | ClearContent => clearContent st
  end.

(** ** Notions used to state properties of the store *)

(** The errors held are those of the content held, and a parse result held
    is the parse of some content that passed validation. *)
Definition coherent (st : State) : Prop :=
  validationErrors st = Parser.errors (Parser.validateGCode (rawContent st))
  /\ match parseResult st with
     | Some r =>
         exists content,
           Parser.isValid (Parser.validateGCode content) = true
           /\ r = Parser.parseGCode content
     | None => True
     end.

End Store.

(* ================================================================== *)
(** * Properties of the path generator *)
(* ================================================================== *)

Unset Implicit Arguments.

Section PathGenProperties.
Import JS Path PathGen.

(** ** Skipped arcs *)

Lemma processArcMove_skipped t this command :
  arcSameXY this command = true \/ arcRadiusTooSmall this command = true ->
  processArcMove t this command = this.
Proof.
  unfold processArcMove. intros [H | H]; rewrite H.
  - reflexivity.
  - destruct (arcSameXY this command); reflexivity.
Qed.

Lemma setFeedrate_frame f this :
  currentPosition (setFeedrate f this) = currentPosition this
  /\ currentExtrusion (setFeedrate f this) = currentExtrusion this
  /\ isAbsolutePositioning (setFeedrate f this) = isAbsolutePositioning this
  /\ segments (setFeedrate f this) = segments this
  /\ currentSegment (setFeedrate f this) = currentSegment this.
Proof. repeat split. Qed.

(** C6: an arc whose end equals its start in X and Y, or whose centre is
    closer than 0.001 to its start, is skipped as a whole: position,
    extrusion, positioning mode, open segment and closed segments are
    those before the command, so no point is emitted. *)
Theorem degenerate_arc_is_skipped this command :
  Parser.type command = Parser.G2 \/ Parser.type command = Parser.G3 ->
  arcSameXY this command = true \/ arcRadiusTooSmall this command = true ->
  let this' := processCommand this command in
  currentPosition this' = currentPosition this
  /\ currentExtrusion this' = currentExtrusion this
  /\ isAbsolutePositioning this' = isAbsolutePositioning this
  /\ segments this' = segments this
  /\ currentSegment this' = currentSegment this.
Proof.
  intros Ht Hskip. unfold processCommand.
  assert (Hd : dispatch this command = this).
  { unfold dispatch. destruct Ht as [-> | ->]; now apply processArcMove_skipped. }
  rewrite Hd. destruct (Parser.pF (Parser.params command)).
  - apply setFeedrate_frame.
  - repeat split.
Qed.

(** ** The invariant of the generator *)

Lemma extrusionAfter_app e a b :
  extrusionAfter e (a ++ b) = extrusionAfter (extrusionAfter e a) b.
Proof. apply fold_left_app. Qed.

Lemma extrusionAfterAll_snoc e l s :
  extrusionAfterAll e (l ++ [s]) = extrusionAfter (extrusionAfterAll e l) (points s).
Proof. unfold extrusionAfterAll. now rewrite fold_left_app. Qed.

Lemma lastSegment_snoc b l s : lastSegment b (l ++ [s]) = Some s.
Proof. unfold lastSegment. now rewrite fold_left_app. Qed.

Lemma flagsComputed_snoc f e a p :
  flagsComputed f e (a ++ [p])
  <-> flagsComputed f e a /\ pointFlag f (extrusionAfter e a) p.
Proof.
  revert e. induction a as [| q a IH]; intros e; cbn [app flagsComputed].
  - cbn. tauto.
  - rewrite IH. cbn. tauto.
Qed.

Lemma pathOk_snoc e b l s :
  pathOk e b (l ++ [s])
  <-> pathOk e b l /\ segmentOk (extrusionAfterAll e l) (lastSegment b l) s.
Proof.
  revert e b. induction l as [| s0 l IH]; intros e b; cbn [app pathOk].
  - cbn. tauto.
  - rewrite IH. cbn. tauto.
Qed.

Lemma setLastParams_snoc a l t :
  setLastParams a (l ++ [t]) = l ++ [withParams a t].
Proof.
  induction l as [| q l IH]; [reflexivity |].
  cbn [app]. cbn [app] in IH.
  destruct (l ++ [t]) as [| r rest] eqn:E.
  - now destruct l.
  - cbn [setLastParams]. cbn [setLastParams] in IH. now rewrite IH.
Qed.

Lemma list_snoc_inv {A} (l : list A) :
  l <> [] -> exists l' t, l = l' ++ [t].
Proof.
  intros H. destruct (exists_last H) as (l' & t & ->). now exists l', t.
Qed.

Lemma extrusionAfter_setLast a e l :
  extrusionAfter e (setLastParams a l) = extrusionAfter e l.
Proof.
  destruct l as [| q l]; [reflexivity |].
  destruct (@list_snoc_inv _ (q :: l)) as (l' & t & ->); [discriminate |].
  rewrite setLastParams_snoc, !extrusionAfter_app. reflexivity.
Qed.

Lemma flagsComputed_setLast a f e l :
  flagsComputed f e (setLastParams a l) <-> flagsComputed f e l.
Proof.
  destruct l as [| q l]; [reflexivity |].
  destruct (@list_snoc_inv _ (q :: l)) as (l' & t & ->); [discriminate |].
  rewrite setLastParams_snoc, !flagsComputed_snoc. reflexivity.
Qed.

Lemma In_setLast a l p :
  In p (setLastParams a l) -> exists q, In q l /\ type p = type q.
Proof.
  destruct l as [| q0 l]; [intros [] |].
  destruct (@list_snoc_inv _ (q0 :: l)) as (l' & t & ->); [discriminate |].
  rewrite setLastParams_snoc, in_app_iff. intros [H | [<- | []]].
  - exists p. split; [apply in_app_iff; now left | reflexivity].
  - exists t. split; [apply in_app_iff; right; now left | reflexivity].
Qed.

Lemma MoveType_eqb_eq a b : MoveType_eqb a b = true <-> a = b.
Proof. destruct a, b; cbn; split; congruence. Qed.

(** The three outcomes of the block that decides whether a segment opens. *)
Lemma ensureSegment_cases this t f :
  (currentSegment this = None
   /\ ensureSegment this t f = (segments this, emptySegment t f))
  \/ (exists c, currentSegment this = Some c
               /\ differ c (emptySegment t f)
               /\ ensureSegment this t f
                  = (match points c with
                     | [] => segments this
                     | _ :: _ => segments this ++ [c]
                     end, emptySegment t f))
  \/ (exists c, currentSegment this = Some c
               /\ segType c = t /\ isExtruding c = f
               /\ ensureSegment this t f = (segments this, c)).
Proof.
  unfold ensureSegment, differ. destruct (currentSegment this) as [c |]; [| now left].
  right. destruct (MoveType_eqb (segType c) t) eqn:Et.
  - destruct (Bool.eqb (isExtruding c) f) eqn:Ef; cbn.
    + right. exists c. apply MoveType_eqb_eq in Et. apply eqb_prop in Ef. auto.
    + left. exists c. repeat split. right. intros E.
      rewrite E, eqb_reflx in Ef. discriminate Ef.
  - left. exists c. repeat split. left. cbn. intros E.
    apply MoveType_eqb_eq in E. congruence.
Qed.

Lemma invariant_open_nonempty this c :
  invariant this -> currentSegment this = Some c -> points c <> [].
Proof.
  intros (_ & Hp & _) Hc. unfold allSegments in Hp. rewrite Hc in Hp.
  apply pathOk_snoc in Hp. apply Hp.
Qed.

Lemma invariant_lastSegment this :
  invariant this -> lastSegment None (allSegments this) = currentSegment this.
Proof.
  intros (Hn & _ & _). unfold allSegments.
  destruct (currentSegment this) as [c |].
  - apply lastSegment_snoc.
  - now rewrite Hn.
Qed.

(** The closed segments once the open one, if any, has been pushed. *)
Lemma invariant_closed this :
  invariant this ->
  match currentSegment this with
  | Some cs =>
      match points cs with
      | [] => segments this
      | _ :: _ => segments this ++ [cs]
      end
  | None => segments this
  end = allSegments this.
Proof.
  intros Hi. unfold allSegments.
  destruct (currentSegment this) as [c |] eqn:Hc.
  - pose proof (invariant_open_nonempty _ _ Hi Hc).
    destruct (points c); [congruence | reflexivity].
  - now rewrite app_nil_r.
Qed.

(** A step that closes the open segment and opens [s]. *)
Lemma invariant_new_segment this this' s :
  invariant this ->
  segments this' = allSegments this ->
  currentSegment this' = Some s ->
  segmentOk (currentExtrusion this) (currentSegment this) s ->
  currentExtrusion this' = extrusionAfter (currentExtrusion this) (points s) ->
  invariant this'.
Proof.
  intros Hi Hs Hc Hok He.
  pose proof (invariant_lastSegment _ Hi) as Hl.
  destruct Hi as (Hn & Hp & Hx).
  unfold invariant, allSegments at 1 2. rewrite Hc, Hs. split; [discriminate |].
  rewrite pathOk_snoc, extrusionAfterAll_snoc, Hl, <- Hx. auto.
Qed.

(** A step that replaces the open segment [c] by [c']. *)
Lemma invariant_extend this this' c c' :
  invariant this ->
  currentSegment this = Some c ->
  segments this' = segments this ->
  currentSegment this' = Some c' ->
  (forall e b, segmentOk e b c ->
               extrusionAfter e (points c) = currentExtrusion this ->
               segmentOk e b c'
               /\ currentExtrusion this' = extrusionAfter e (points c')) ->
  invariant this'.
Proof.
  intros (Hn & Hp & Hx) Hc Hs Hc' Hstep.
  unfold allSegments in Hp, Hx. rewrite Hc in Hp, Hx.
  apply pathOk_snoc in Hp. destruct Hp as (Hp & Hok).
  rewrite extrusionAfterAll_snoc in Hx.
  destruct (Hstep _ _ Hok (eq_sym Hx)) as (Hok' & Hx').
  unfold invariant, allSegments. rewrite Hc', Hs. split; [discriminate |].
  rewrite pathOk_snoc, extrusionAfterAll_snoc. auto.
Qed.

Lemma differ_same_header c s s' :
  segType s' = segType s -> isExtruding s' = isExtruding s ->
  differ c s -> differ c s'.
Proof. unfold differ. intros -> ->. auto. Qed.

Lemma opensWithHome_push p s :
  points s <> [] -> opensWithHome s -> opensWithHome (push p s).
Proof.
  unfold opensWithHome, push. cbn. destruct (points s); [congruence | auto].
Qed.

Lemma typeConstant_push p s :
  type p = segType s -> typeConstant s -> typeConstant (push p s).
Proof.
  unfold typeConstant, push. cbn. intros Hp Hs q Hq.
  apply in_app_iff in Hq. destruct Hq as [Hq | [<- | []]]; auto.
Qed.

Lemma invariant_linear t this command :
  isArc t = false -> invariant this ->
  invariant (processLinearMove t this command).
Proof.
  intros Ht Hi. unfold processLinearMove.
  set (newExtrusion := calculateNewExtrusion this command).
  set (point := mkPoint _ _ _ _ _ _).
  pose proof (invariant_closed _ Hi) as Hcl.
  destruct (ensureSegment_cases this t (gt newExtrusion (currentExtrusion this)))
    as [(Hc & E) | [(c & Hc & Hd & E) | (c & Hc & Hty & Hf & E)]];
    rewrite E; rewrite Hc in Hcl.
  - eapply (invariant_new_segment this);
      [exact Hi | exact Hcl | reflexivity | | reflexivity].
    rewrite Hc. repeat split; try discriminate.
    + intros p [<- | []]. reflexivity.
    + unfold segmentFlag. cbn. rewrite Ht. cbn. auto.
    + intros Ha. cbn in Ha. congruence.
  - eapply (invariant_new_segment this);
      [exact Hi | exact Hcl | reflexivity | | reflexivity].
    rewrite Hc. repeat split; try discriminate.
    + intros p [<- | []]. reflexivity.
    + unfold segmentFlag. cbn. rewrite Ht. cbn. auto.
    + intros Ha. cbn in Ha. congruence.
    + left. exact Hd.
  - eapply (invariant_extend this);
      [exact Hi | exact Hc | reflexivity | reflexivity |].
    intros e b (Hne & Htc & Hfl & Has & Hadj) Hx. split.
    + repeat split.
      * cbn. now destruct (points c).
      * apply typeConstant_push; [now rewrite Hty | assumption].
      * unfold segmentFlag in *. cbn. rewrite Hty, Ht in *.
        apply flagsComputed_snoc. split; [assumption |].
        unfold pointFlag. cbn. now rewrite Hx, Hf.
      * intros Ha. cbn in Ha. congruence.
      * destruct b as [s0 |]; [| trivial]. destruct Hadj as [Hadj | Hadj].
        -- left. revert Hadj. now apply differ_same_header.
        -- right. now apply opensWithHome_push.
    + cbn [currentExtrusion points push]. rewrite extrusionAfter_app. reflexivity.
Qed.

Lemma setLastParams_cons a q rest :
  rest <> [] -> setLastParams a (q :: rest) = q :: setLastParams a rest.
Proof. destruct rest; [congruence | reflexivity]. Qed.

Lemma invariant_arc t this command :
  isArc t = true -> invariant this ->
  invariant (processArcMove t this command).
Proof.
  intros Ht Hi. unfold processArcMove.
  destruct (arcSameXY this command); [exact Hi |].
  destruct (arcRadiusTooSmall this command); [exact Hi |].
  set (newExtrusion := calculateNewExtrusion this command).
  set (a := arcParamsOf command).
  set (endPoint := mkPoint (arcEndPosition this command) _ _ _ _ _).
  pose proof (invariant_closed _ Hi) as Hcl.
  destruct (ensureSegment_cases this t (gt newExtrusion (currentExtrusion this)))
    as [(Hc & E) | [(c & Hc & Hd & E) | (c & Hc & Hty & Hf & E)]];
    rewrite E; rewrite Hc in Hcl.
  - eapply (invariant_new_segment this);
      [exact Hi | exact Hcl | reflexivity | | reflexivity].
    rewrite Hc. repeat split; try discriminate.
    + intros p [<- | [<- | []]]; reflexivity.
    + unfold segmentFlag. cbn. rewrite Ht. cbn. auto.
    + intros _. exists [], (mkPoint (currentPosition this) t
                              (Some (currentFeedrate this))
                              (Some (currentExtrusion this))
                              (Parser.lineNumber command) (Some a)), endPoint, a.
      cbn. repeat split; auto.
  - eapply (invariant_new_segment this);
      [exact Hi | exact Hcl | reflexivity | | reflexivity].
    rewrite Hc. repeat split; try discriminate.
    + intros p [<- | [<- | []]]; reflexivity.
    + unfold segmentFlag. cbn. rewrite Ht. cbn. auto.
    + intros _. exists [], (mkPoint (currentPosition this) t
                              (Some (currentFeedrate this))
                              (Some (currentExtrusion this))
                              (Parser.lineNumber command) (Some a)), endPoint, a.
      cbn. repeat split; auto.
    + left. exact Hd.
  - pose proof (invariant_open_nonempty _ _ Hi Hc) as Hne.
    destruct (points c) as [| q0 rest0] eqn:Epts; [congruence |].
    rewrite <- Epts in *. clear Epts q0 rest0.
    eapply (invariant_extend this);
      [exact Hi | exact Hc | reflexivity | reflexivity |].
    intros e b (_ & Htc & Hfl & Has & Hadj) Hx.
    assert (Harc : isArc (segType c) = true) by now rewrite Hty.
    destruct (Has Harc) as (pre & l & tr & a0 & Hpts & Hl & Htr & Hpre).
    unfold segmentFlag in Hfl. rewrite Harc in Hfl.
    destruct (points c) as [| leading rest] eqn:Epts; [congruence |].
    destruct Hfl as (Hlead & Hfl).
    assert (Hrest : rest <> []).
    { intros ->. destruct pre as [| ? [| ? ?]]; discriminate Hpts. }
    assert (Hcur : currentExtrusion this = extrusionAfter e rest).
    { rewrite <- Hx. cbn. now rewrite Hlead. }
    split.
    + repeat split.
      * cbn [points push]. intros H. apply app_eq_nil in H.
        destruct H as (_ & H). discriminate H.
      * intros p Hp. cbn [points push segType] in *. apply in_app_iff in Hp.
        destruct Hp as [Hp | [<- | []]]; [| now rewrite Hty].
        apply In_setLast in Hp. destruct Hp as (q & Hq & ->).
        apply Htc. now rewrite Epts.
      * unfold segmentFlag. cbn [segType isExtruding points push].
        rewrite Harc, setLastParams_cons by assumption. cbn [app].
        split; [assumption |].
        apply flagsComputed_snoc. split.
        -- now apply flagsComputed_setLast.
        -- rewrite extrusionAfter_setLast. unfold pointFlag. cbn.
           now rewrite Hf, Hcur.
      * intros _. exists (pre ++ [l]), (withParams a tr), endPoint, a.
        cbn [points push]. rewrite Hpts.
        change [l; tr] with ([l] ++ [tr]).
        rewrite app_assoc, setLastParams_snoc, <- !app_assoc.
        repeat split; auto.
        intros p Hp. apply in_app_iff in Hp.
        destruct Hp as [Hp | [<- | []]]; [auto | congruence].
      * destruct b as [s0 |]; [| trivial]. destruct Hadj as [Hadj | Hadj].
        -- left. revert Hadj. now apply differ_same_header.
        -- right. unfold opensWithHome in *. cbn [points push].
           rewrite Epts in Hadj.
           rewrite setLastParams_cons by assumption. exact Hadj.
    + cbn [currentExtrusion points push]. rewrite extrusionAfter_app. reflexivity.
Qed.

Lemma invariant_home this command :
  invariant this -> invariant (processHomeMove this command).
Proof.
  intros Hi.
  eapply (invariant_new_segment this);
    [exact Hi | exact (invariant_closed _ Hi) | reflexivity | | reflexivity].
  repeat split; try discriminate.
  - intros p [<- | []]. reflexivity.
  - destruct (currentSegment this); [right; reflexivity | trivial].
Qed.

Lemma invariant_same this this' :
  segments this' = segments this ->
  currentSegment this' = currentSegment this ->
  currentExtrusion this' = currentExtrusion this ->
  invariant this -> invariant this'.
Proof.
  unfold invariant, allSegments. intros -> -> ->. auto.
Qed.

Lemma invariant_processCommand this command :
  invariant this -> invariant (processCommand this command).
Proof.
  intros Hi. unfold processCommand.
  assert (Hd : invariant (dispatch this command)).
  { unfold dispatch. destruct (Parser.type command);
      first [ exact Hi
            | now apply invariant_linear
            | now apply invariant_arc
            | now apply invariant_home
            | now apply (invariant_same this) ]. }
  destruct (Parser.pF _); [| exact Hd].
  now apply (invariant_same (dispatch this command)).
Qed.

Lemma invariant_reset this : invariant (reset this).
Proof. repeat split. Qed.

Lemma invariant_run this commands : invariant (run this commands).
Proof.
  unfold run. generalize (invariant_reset this). generalize (reset this).
  induction commands as [| c cs IH]; intros st Hst; [exact Hst |].
  cbn [fold_left]. apply IH. now apply invariant_processCommand.
Qed.

(** The list [generatePath] returns is the closed segments followed by the
    open one. *)
Lemma generatePath_allSegments this commands :
  generatePath this commands = allSegments (run this commands).
Proof.
  unfold generatePath, flush. apply invariant_closed, invariant_run.
Qed.

Lemma generatePath_pathOk this commands :
  pathOk 0 None (generatePath this commands).
Proof.
  rewrite generatePath_allSegments. apply (invariant_run this commands).
Qed.

(** ** Segments of the returned list *)

Lemma pathOk_In e b l s :
  pathOk e b l -> In s l -> points s <> [] /\ typeConstant s /\ arcShape s.
Proof.
  revert e b. induction l as [| s0 l IH]; intros e b Hp Hs; [destruct Hs |].
  destruct Hp as ((Hne & Htc & _ & Has & _) & Hp). destruct Hs as [<- | Hs].
  - auto.
  - eapply IH; eassumption.
Qed.

Lemma pathOk_flagsThread e b l : pathOk e b l -> flagsThread e l.
Proof.
  revert e b. induction l as [| s0 l IH]; intros e b Hp; [exact Logic.I |].
  destruct Hp as ((_ & _ & Hfl & _) & Hp). split; [assumption |].
  eapply IH; eassumption.
Qed.

Lemma pathOk_adjacent e b l :
  pathOk e b l -> adjacent (fun s1 s2 => differ s1 s2 \/ opensWithHome s2) l.
Proof.
  revert e b. induction l as [| s0 l IH]; intros e b Hp i s1 s2 H1 H2.
  - destruct i; discriminate H1.
  - destruct Hp as (_ & Hp). destruct i as [| i].
    + cbn in H1, H2. injection H1 as ->.
      destruct l as [| s3 l]; [discriminate H2 |].
      cbn in H2. injection H2 as ->. destruct Hp as ((_ & _ & _ & _ & Hadj) & _).
      exact Hadj.
    + cbn in H1. eapply IH; eassumption.
Qed.

(** C1, as stated, fails: two home instructions in a row give two adjacent
    segments of type G0 that are both non-extruding. *)
Lemma adjacent_segments_may_agree :
  let document := ("G28" ++ String Parser.LF "G28")%string in
  ~ adjacent differ
      (generatePath newGenerator (Parser.commands (Parser.parseGCode document))).
Proof.
  cbv zeta. intros H.
  set (out := generatePath _ _) in H.
  destruct (nth_error out 0) as [s1 |] eqn:E1; [| vm_compute in E1; discriminate E1].
  destruct (nth_error out 1) as [s2 |] eqn:E2; [| vm_compute in E2; discriminate E2].
  pose proof (H 0%nat s1 s2 E1 E2) as Hd.
  vm_compute in E1, E2.
  injection E1 as <-. injection E2 as <-.
  destruct Hd as [Hd | Hd]; apply Hd; reflexivity.
Qed.

(** C1, amended: in the list [generatePath] returns, every point has the
    type of its segment, the flag of a segment is the one computed for each
    of its points, and two adjacent segments differ in type or in flag
    unless the later one was opened by a home instruction. *)
Theorem segment_invariant this commands :
  let out := generatePath this commands in
  (forall s, In s out -> typeConstant s)
  /\ flagsThread 0 out
  /\ adjacent (fun s1 s2 => differ s1 s2 \/ opensWithHome s2) out.
Proof.
  cbv zeta. pose proof (generatePath_pathOk this commands) as Hp.
  repeat split.
  - intros s Hs. eapply pathOk_In; eassumption.
  - eapply pathOk_flagsThread; eassumption.
  - eapply pathOk_adjacent; eassumption.
Qed.

(** ** Arc parameters *)

(** An arc that is not skipped leaves its leading and its trailing point at
    the end of the open segment, both with the parameters of the command. *)
Lemma processArcMove_pair t this command :
  arcSameXY this command = false ->
  arcRadiusTooSmall this command = false ->
  exists seg pre leading trailing,
    currentSegment (processArcMove t this command) = Some seg
    /\ points seg = pre ++ [leading; trailing]
    /\ params leading = Some (arcParamsOf command)
    /\ params trailing = Some (arcParamsOf command)
    /\ position trailing = arcEndPosition this command.
Proof.
  intros H1 H2. unfold processArcMove. rewrite H1, H2.
  destruct (ensureSegment this t _) as (segs, seg).
  destruct (points seg) as [| q rest] eqn:E.
  - eexists. exists []. eexists. eexists.
    split; [reflexivity |]. cbn [points push]. rewrite E. repeat split.
  - destruct (@list_snoc_inv _ (q :: rest)) as (l' & tr & El); [discriminate |].
    rewrite El. eexists. exists l', (withParams (arcParamsOf command) tr).
    eexists. split; [reflexivity |].
    cbn [points push]. rewrite setLastParams_snoc, <- app_assoc.
    repeat split.
Qed.

(** C3, as stated, fails: two arcs in a row with different offsets share one
    segment of three points, and the leading and the trailing point of the
    first arc (both of line 1) carry different parameters. *)
Lemma arc_pairs_may_disagree :
  let document := ("G2 X10 Y0 I5 J0" ++ String Parser.LF "G2 X20 Y0 I5 J1")%string in
  let out := generatePath newGenerator (Parser.commands (Parser.parseGCode document)) in
  ~ (forall s, In s out -> isArc (segType s) = true -> paired (points s))
  /\ exists s leading trailing rest,
      out = [s] /\ points s = leading :: trailing :: rest
      /\ lineNumber leading = 1%nat /\ lineNumber trailing = 1%nat
      /\ params leading <> params trailing.
Proof.
  cbv zeta. set (out := generatePath _ _).
  destruct out as [| s [| s' out']] eqn:E;
    try (vm_compute in E; discriminate E).
  assert (Es : Some s = nth_error out 0) by (now rewrite E).
  vm_compute in Es. injection Es as ->.
  split.
  - intros H. specialize (H _ (or_introl eq_refl) eq_refl).
    cbn in H. tauto.
  - eexists _, _, _, _. repeat split. cbn. intros H.
    apply (f_equal (fun o => match o with
                             | Some a => match J a with
                                         | Some j => PrimFloat.eqb j 0
                                         | None => false
                                         end
                             | None => false
                             end)) in H.
    vm_compute in H. discriminate H.
Qed.

(** C3, amended: every arc segment of the list [generatePath] returns holds
    at least two points, each carrying arc parameters, and its last two
    points, the leading and the trailing point of its last arc, carry the
    same ones. *)
Theorem arc_segment_parameters this commands s :
  In s (generatePath this commands) -> arcShape s.
Proof.
  intros Hs. eapply pathOk_In; [apply generatePath_pathOk | exact Hs].
Qed.

Lemma arc_segment_parameters_witness :
  let document := ("G2 X10 Y0 I5 J0" ++ String Parser.LF "G2 X20 Y0 I5 J1")%string in
  let out := generatePath newGenerator (Parser.commands (Parser.parseGCode document)) in
  arcShape (nth 0 out (emptySegment G0 false)).
Proof.
  cbv zeta.
  apply (arc_segment_parameters newGenerator
           (Parser.commands
              (Parser.parseGCode
                 ("G2 X10 Y0 I5 J0" ++ String Parser.LF "G2 X20 Y0 I5 J1")%string))).
  vm_compute. left. reflexivity.
Defined.

(** ** Home instructions *)

Ltac float_neq H c :=
  apply (f_equal (fun v => PrimFloat.eqb v c)) in H; vm_compute in H; discriminate H.

Lemma processHomeMove_position this command :
  currentPosition (processHomeMove this command) = origin.
Proof.
  unfold processHomeMove, origin. cbn.
  destruct (Parser.pX _), (Parser.pY _), (Parser.pZ _); reflexivity.
Qed.

Lemma processHomeMove_segment this command :
  currentSegment (processHomeMove this command)
  = Some (mkSegment
            [mkPoint origin G0 (Some (currentFeedrate this)) None
               (Parser.lineNumber command) None] G0 false).
Proof.
  unfold processHomeMove, origin. cbn.
  destruct (Parser.pX _), (Parser.pY _), (Parser.pZ _); reflexivity.
Qed.

(** C2, at the document "G1 X5 Y7 / G28 X0": the home instruction names only
    X, yet the point it emits is the origin; Y is reset from 7 to 0 as well. *)
Theorem home_resets_unnamed_axes :
  let document := ("G1 X5 Y7" ++ String Parser.LF "G28 X0")%string in
  map (fun s => map (@position float) (points s))
    (generatePath newGenerator (Parser.commands (Parser.parseGCode document)))
  = [ [mkVector3 5%float 7%float 0%float]; [mkVector3 0%float 0%float 0%float] ].
Proof. vm_compute. reflexivity. Qed.

(** C5, as stated, fails: from feedrate 100 the line "G28 F200" leaves the
    generator at feedrate 200, and the home point it emits changes with the
    feedrate the generator holds. *)
Lemma home_reads_and_writes_feedrate :
  let this := setFeedrate 100 newGenerator in
  let home := Parser.mkCommand Parser.G28 1 None
                (Parser.set_param "F" 200 Parser.noParams) "G28 F200" in
  currentFeedrate (processCommand this home) <> currentFeedrate this
  /\ currentSegment (processCommand this home)
     <> currentSegment (processCommand (setFeedrate 300 this) home).
Proof.
  cbv zeta. split; intro H.
  - vm_compute in H. float_neq H 100%float.
  - apply (f_equal (fun o => match o with
                             | Some s =>
                                 match map (@feedrate float) (points s) with
                                 | Some f :: _ => PrimFloat.eqb f 100
                                 | _ => false
                                 end
                             | None => false
                             end)) in H.
    vm_compute in H. discriminate H.
Qed.

(** C5, amended: a home instruction stamps the point it emits with the
    feedrate the generator holds, and like every instruction it replaces
    that feedrate by its own F parameter when it has one. *)
Theorem home_feedrate this command :
  Parser.type command = Parser.G28 ->
  let this' := processCommand this command in
  (exists point,
      currentSegment this' = Some (mkSegment [point] G0 false)
      /\ feedrate point = Some (currentFeedrate this))
  /\ currentFeedrate this'
     = match Parser.pF (Parser.params command) with
       | Some f => f
       | None => currentFeedrate this
       end.
Proof.
  intros Ht. unfold processCommand, dispatch. rewrite Ht.
  pose proof (processHomeMove_segment this command) as Hs.
  destruct (Parser.pF (Parser.params command)); cbn; split;
    try (eexists; split; [ exact Hs | reflexivity ]); reflexivity.
Qed.

Lemma home_feedrate_witness :
  let this := setFeedrate 100 newGenerator in
  let home := Parser.mkCommand Parser.G28 1 None
                (Parser.set_param "F" 200 Parser.noParams) "G28 F200" in
  currentFeedrate (processCommand this home) = 200%float.
Proof.
  cbv zeta.
  exact (proj2 (home_feedrate (setFeedrate 100 newGenerator)
                  (Parser.mkCommand Parser.G28 1 None
                     (Parser.set_param "F" 200 Parser.noParams) "G28 F200")
                  eq_refl)).
Defined.

Lemma degenerate_arc_is_skipped_witness :
  let arc := Parser.mkCommand Parser.G2 1 None
               (Parser.set_param "I" 5 Parser.noParams) "G2 I5" in
  currentSegment (processCommand newGenerator arc) = None.
Proof.
  cbv zeta.
  exact (proj2 (proj2 (proj2 (proj2
           (degenerate_arc_is_skipped newGenerator
              (Parser.mkCommand Parser.G2 1 None
                 (Parser.set_param "I" 5 Parser.noParams) "G2 I5")
              (or_introl eq_refl) (or_introl eq_refl)))))).
Defined.

End PathGenProperties.

(* ================================================================== *)
(** * Properties of the parser *)
(* ================================================================== *)

Section NumberOrder.
Import JS.

Ltac order_cases :=
  repeat match goal with
         | |- context [(?a ?= ?b)%Z] => destruct (Z.compare_spec a b)
         | |- context [Pos.compare_cont Eq ?a ?b] =>
             change (Pos.compare_cont Eq a b) with (Pos.compare a b);
             destruct (Pos.compare_spec a b)
         end;
  cbn; split; intro; first [reflexivity | discriminate | lia].

Lemma SFleb_key v w :
  v <> S754_nan -> w <> S754_nan ->
  SFleb v w = true <-> lexle (orderKey v) (orderKey w).
Proof.
  intros Hv Hw. unfold SFleb, lexle.
  destruct v as [sv | sv | | sv mv ev], w as [sw | sw | | sw mw ew];
    try congruence; try destruct sv; try destruct sw; cbn; order_cases.
Qed.

Lemma SFltb_key v w :
  v <> S754_nan -> w <> S754_nan ->
  SFltb v w = true <-> ~ lexle (orderKey w) (orderKey v).
Proof.
  intros Hv Hw. unfold SFltb, lexle.
  destruct v as [sv | sv | | sv mv ev], w as [sw | sw | | sw mw ew];
    try congruence; try destruct sv; try destruct sw; cbn; order_cases.
Qed.

Lemma lexle_trans a b c : lexle a b -> lexle b c -> lexle a c.
Proof. destruct a as ((?, ?), ?), b as ((?, ?), ?), c as ((?, ?), ?). cbn. lia. Qed.

Lemma lexle_total a b : lexle a b \/ lexle b a.
Proof. destruct a as ((?, ?), ?), b as ((?, ?), ?). cbn. lia. Qed.

Lemma lexle_refl a : lexle a a.
Proof. destruct a as ((?, ?), ?). cbn. lia. Qed.

Lemma SFcompare_finite_refl s m e :
  SFcompare (S754_finite s m e) (S754_finite s m e) = Some Eq.
Proof.
  cbn. rewrite Z.compare_refl.
  change (Pos.compare_cont Eq m m) with (Pos.compare m m).
  rewrite Pos.compare_refl. now destruct s.
Qed.

Lemma notNaN_spec a : notNaN a <-> Prim2SF a <> S754_nan.
Proof.
  unfold notNaN, is_nan. rewrite FloatAxioms.eqb_spec. unfold SFeqb.
  destruct (Prim2SF a) as [s | s | | s m e].
  - cbn. split; [discriminate | reflexivity].
  - destruct s; cbn; split; (discriminate || reflexivity).
  - cbn. split; [discriminate | congruence].
  - rewrite SFcompare_finite_refl. cbn. split; [discriminate | reflexivity].
Qed.

Lemma le_key a b :
  notNaN a -> notNaN b ->
  le a b <-> lexle (orderKey (Prim2SF a)) (orderKey (Prim2SF b)).
Proof.
  intros Ha Hb. unfold le. rewrite leb_spec.
  apply SFleb_key; now apply notNaN_spec.
Qed.

Lemma ltb_key a b :
  notNaN a -> notNaN b ->
  (a <? b)%float = true
  <-> ~ lexle (orderKey (Prim2SF b)) (orderKey (Prim2SF a)).
Proof.
  intros Ha Hb. rewrite ltb_spec.
  apply SFltb_key; now apply notNaN_spec.
Qed.

Lemma le_refl a : notNaN a -> le a a.
Proof. intros Ha. apply le_key; [assumption .. |]. apply lexle_refl. Qed.

Lemma le_trans a b c :
  notNaN a -> notNaN b -> notNaN c -> le a b -> le b c -> le a c.
Proof.
  intros Ha Hb Hc Hab Hbc.
  apply le_key in Hab; [| assumption ..]. apply le_key in Hbc; [| assumption ..].
  apply le_key; [assumption .. |]. eapply lexle_trans; eassumption.
Qed.

Lemma ltb_true_le a b : notNaN a -> notNaN b -> (a <? b)%float = true -> le a b.
Proof.
  intros Ha Hb H. apply ltb_key in H; [| assumption ..].
  apply le_key; [assumption .. |].
  destruct (lexle_total (orderKey (Prim2SF a)) (orderKey (Prim2SF b))); tauto.
Qed.

Lemma ltb_false_le a b : notNaN a -> notNaN b -> (a <? b)%float = false -> le b a.
Proof.
  intros Ha Hb H. apply le_key; [assumption .. |].
  assert (Hd : ~ ~ lexle (orderKey (Prim2SF b)) (orderKey (Prim2SF a))).
  { intros Hn. apply ltb_key in Hn; [| assumption ..]. congruence. }
  destruct (orderKey (Prim2SF b)) as ((b1, b2), b3).
  destruct (orderKey (Prim2SF a)) as ((a1, a2), a3). cbn in *. lia.
Qed.

(** [Math.max] and [Math.min] of two numbers return one of them, which
    bounds both. *)
Lemma Math_max_spec a b :
  notNaN a -> notNaN b ->
  (Math_max a b = a \/ Math_max a b = b)
  /\ le a (Math_max a b) /\ le b (Math_max a b).
Proof.
  intros Ha Hb. unfold Math_max. rewrite Ha, Hb. cbn [orb].
  destruct (a <? b)%float eqn:Hab.
  { repeat split; [now right | now apply ltb_true_le | now apply le_refl]. }
  destruct (b <? a)%float eqn:Hba.
  { repeat split; [now left | now apply le_refl | now apply ltb_true_le]. }
  pose proof (ltb_false_le _ _ Ha Hb Hab). pose proof (ltb_false_le _ _ Hb Ha Hba).
  destruct (get_sign a); repeat split; auto using le_refl.
Qed.

Lemma Math_min_spec a b :
  notNaN a -> notNaN b ->
  (Math_min a b = a \/ Math_min a b = b)
  /\ le (Math_min a b) a /\ le (Math_min a b) b.
Proof.
  intros Ha Hb. unfold Math_min. rewrite Ha, Hb. cbn [orb].
  destruct (a <? b)%float eqn:Hab.
  { repeat split; [now left | now apply le_refl | now apply ltb_true_le]. }
  destruct (b <? a)%float eqn:Hba.
  { repeat split; [now right | now apply ltb_true_le | now apply le_refl]. }
  pose proof (ltb_false_le _ _ Ha Hb Hab). pose proof (ltb_false_le _ _ Hb Ha Hba).
  destruct (get_sign a); repeat split; auto using le_refl.
Qed.

(** The two sentinels of [parseGCode] are neutral. *)
Lemma Math_max_neg_infinity v : notNaN v -> Math_max neg_infinity v = v.
Proof.
  intros Hv. unfold Math_max. rewrite Hv.
  replace (is_nan neg_infinity) with false by reflexivity. cbn [orb].
  destruct (neg_infinity <? v)%float; [reflexivity |].
  destruct (v <? neg_infinity)%float eqn:H; [| reflexivity].
  apply ltb_key in H; [| assumption | reflexivity]. exfalso. apply H.
  apply notNaN_spec in Hv.
  replace (Prim2SF neg_infinity) with (S754_infinity true) by reflexivity.
  destruct (Prim2SF v) as [[] | [] | | [] m e]; cbn; lia.
Qed.

Lemma Math_min_infinity v : notNaN v -> Math_min infinity v = v.
Proof.
  intros Hv. unfold Math_min. rewrite Hv.
  replace (is_nan infinity) with false by reflexivity. cbn [orb].
  destruct (infinity <? v)%float eqn:H.
  - apply ltb_key in H; [| reflexivity | assumption]. exfalso. apply H.
    apply notNaN_spec in Hv.
    replace (Prim2SF infinity) with (S754_infinity false) by reflexivity.
    destruct (Prim2SF v) as [[] | [] | | [] m e]; cbn; lia.
  - destruct (v <? infinity)%float; reflexivity.
Qed.

(** The running maximum of a list of numbers, from [m0]. *)
Lemma fold_Math_max l m0 :
  notNaN m0 -> Forall notNaN l ->
  let M := fold_left Math_max l m0 in
  notNaN M /\ le m0 M /\ (forall v, In v l -> le v M) /\ (M = m0 \/ In M l).
Proof.
  revert m0. induction l as [| v l IH]; intros m0 Hm Hl; cbv zeta.
  - cbn. repeat split; [assumption | now apply le_refl | tauto | now left].
  - apply Forall_cons_iff in Hl. destruct Hl as (Hv & Hl).
    destruct (Math_max_spec m0 v Hm Hv) as (Hc & H1 & H2).
    assert (Hn : notNaN (Math_max m0 v)) by (destruct Hc as [-> | ->]; assumption).
    destruct (IH _ Hn Hl) as (HM & Hle & Hall & Hin). cbn [fold_left].
    repeat split.
    + assumption.
    + eapply le_trans; [| | | exact H1 | exact Hle]; assumption.
    + intros u [<- | Hu]; [| now apply Hall].
      eapply le_trans; [| | | exact H2 | exact Hle]; assumption.
    + destruct Hin as [-> | Hin]; [| right; now right].
      destruct Hc as [-> | ->]; [now left | right; now left].
Qed.

Lemma fold_Math_min l m0 :
  notNaN m0 -> Forall notNaN l ->
  let M := fold_left Math_min l m0 in
  notNaN M /\ le M m0 /\ (forall v, In v l -> le M v) /\ (M = m0 \/ In M l).
Proof.
  revert m0. induction l as [| v l IH]; intros m0 Hm Hl; cbv zeta.
  - cbn. repeat split; [assumption | now apply le_refl | tauto | now left].
  - apply Forall_cons_iff in Hl. destruct Hl as (Hv & Hl).
    destruct (Math_min_spec m0 v Hm Hv) as (Hc & H1 & H2).
    assert (Hn : notNaN (Math_min m0 v)) by (destruct Hc as [-> | ->]; assumption).
    destruct (IH _ Hn Hl) as (HM & Hle & Hall & Hin). cbn [fold_left].
    repeat split.
    + assumption.
    + eapply le_trans; [| | | exact Hle | exact H1]; assumption.
    + intros u [<- | Hu]; [| now apply Hall].
      eapply le_trans; [| | | exact Hle | exact H2]; assumption.
    + destruct Hin as [-> | Hin]; [| right; now right].
      destruct Hc as [-> | ->]; [now left | right; now left].
Qed.

End NumberOrder.

Section ParserProperties.
Import JS Parser.

(** ** Upper-casing commutes with the string operations of [parseCommand] *)

Lemma upper_char_idem c : upper_char (upper_char c) = upper_char c.
Proof. destruct c as [[] [] [] [] [] [] [] []]; reflexivity. Qed.

Lemma isWhiteSpace_upper c : isWhiteSpace (upper_char c) = isWhiteSpace c.
Proof. destruct c as [[] [] [] [] [] [] [] []]; reflexivity. Qed.

Lemma semicolon_upper c : Ascii.eqb (upper_char c) ";" = Ascii.eqb c ";".
Proof. destruct c as [[] [] [] [] [] [] [] []]; reflexivity. Qed.

Lemma toUpperCase_idem s : toUpperCase (toUpperCase s) = toUpperCase s.
Proof.
  induction s as [| c s IH]; [reflexivity |].
  cbn. now rewrite upper_char_idem, IH.
Qed.

Lemma toUpperCase_app a b :
  toUpperCase (a ++ b) = (toUpperCase a ++ toUpperCase b)%string.
Proof.
  induction a as [| c a IH]; [reflexivity |]. cbn. now rewrite IH.
Qed.

Lemma isEmpty_upper s : isEmpty (toUpperCase s) = isEmpty s.
Proof. now destruct s. Qed.

Lemma split_semicolon_upper cur s :
  split_char_aux ";" (toUpperCase cur) (toUpperCase s)
  = map toUpperCase (split_char_aux ";" cur s).
Proof.
  revert cur. induction s as [| c s IH]; intros cur; [reflexivity |].
  cbn [toUpperCase split_char_aux]. rewrite semicolon_upper.
  destruct (Ascii.eqb c ";").
  - cbn [map]. f_equal. apply (IH EmptyString).
  - rewrite <- IH, toUpperCase_app. reflexivity.
Qed.

Lemma split_first_upper s :
  split_first ";" (toUpperCase s) = toUpperCase (split_first ";" s).
Proof.
  unfold split_first, split_char.
  change (split_char_aux ";" "" (toUpperCase s))
    with (split_char_aux ";" (toUpperCase "") (toUpperCase s)).
  rewrite split_semicolon_upper.
  now destruct (split_char_aux ";" EmptyString s).
Qed.

Lemma trimStart_upper s : trimStart (toUpperCase s) = toUpperCase (trimStart s).
Proof.
  induction s as [| c s IH]; [reflexivity |].
  cbn [toUpperCase trimStart]. rewrite isWhiteSpace_upper.
  now destruct (isWhiteSpace c).
Qed.

Lemma trimEnd_upper s : trimEnd (toUpperCase s) = toUpperCase (trimEnd s).
Proof.
  induction s as [| c s IH]; [reflexivity |].
  cbn [toUpperCase trimEnd]. rewrite isWhiteSpace_upper, IH, isEmpty_upper.
  now destruct (isWhiteSpace c && isEmpty (trimEnd s)).
Qed.

Lemma trim_upper s : trim (toUpperCase s) = toUpperCase (trim s).
Proof. unfold trim. now rewrite trimStart_upper, trimEnd_upper. Qed.

Lemma split_ws_upper cur skipping s :
  split_ws_aux (toUpperCase cur) skipping (toUpperCase s)
  = map toUpperCase (split_ws_aux cur skipping s).
Proof.
  revert cur skipping. induction s as [| c s IH]; intros cur skipping; [reflexivity |].
  cbn [toUpperCase split_ws_aux]. rewrite isWhiteSpace_upper.
  destruct (isWhiteSpace c).
  - destruct skipping.
    + apply IH.
    + cbn [map]. f_equal. apply (IH EmptyString).
  - rewrite <- IH, toUpperCase_app. reflexivity.
Qed.

Lemma processPart_upper st part :
  processPart st (toUpperCase part) = processPart st part.
Proof. unfold processPart. now rewrite toUpperCase_idem. Qed.

Lemma fold_processPart_upper parts st :
  fold_left processPart (map toUpperCase parts) st = fold_left processPart parts st.
Proof.
  revert st. induction parts as [| p parts IH]; intros st; [reflexivity |].
  cbn [map fold_left]. now rewrite processPart_upper, IH.
Qed.

Lemma parseCommand_upper line n :
  parseCommand (toUpperCase line) n
  = option_map (withRaw (toUpperCase line)) (parseCommand line n).
Proof.
  unfold parseCommand.
  rewrite split_first_upper, trim_upper, isEmpty_upper.
  destruct (isEmpty (trim (split_first ";" line))); [reflexivity |].
  unfold split_ws.
  change (split_ws_aux "" false (toUpperCase ?s))
    with (split_ws_aux (toUpperCase "") false (toUpperCase s)).
  rewrite split_ws_upper, fold_processPart_upper.
  reflexivity.
Qed.

(** The words [validateGCode] accepts start with an upper-case letter. *)
Lemma accepted_part_is_uppercase part :
  codePattern part || valuePattern part = true ->
  exists c rest, part = String c rest
                 /\ (char_in c code_letters || char_in c value_letters = true).
Proof.
  destruct part as [| c rest]; [discriminate |].
  intros H. exists c, rest. split; [reflexivity |].
  unfold codePattern, valuePattern in H.
  destruct (char_in c code_letters), (char_in c value_letters);
    try reflexivity; discriminate H.
Qed.

(** C10: parsing a line and parsing the same line in upper case give the
    same command, up to the [raw] text it echoes; validation accepts only
    words that start with one of the upper-case letters; and the document
    "g1 x10" is rejected by validation while it parses into a feed move
    to X = 10. *)
Theorem parsing_ignores_case_validation_does_not :
  (forall line n,
      parseCommand (toUpperCase line) n
      = option_map (withRaw (toUpperCase line)) (parseCommand line n))
  /\ (forall part,
        codePattern part || valuePattern part = true ->
        exists c rest,
          part = String c rest
          /\ In c (code_letters ++ value_letters))
  /\ (let document := "g1 x10"%string in
      validateGCode document = mkValidation false [InvalidPart 1 "g1"]
      /\ exists command,
          parseCommand document 1 = Some command
          /\ type command = G1
          /\ params command
             = set_param "X" 10 (set_param "G" 1 noParams)).
Proof.
  split; [exact parseCommand_upper |]. split.
  - intros part H. destruct (accepted_part_is_uppercase part H) as (c & rest & -> & Hc).
    exists c, rest. split; [reflexivity |].
    apply in_app_iff. apply orb_true_iff in Hc.
    unfold char_in in Hc. rewrite !existsb_exists in Hc.
    destruct Hc as [(d & Hd & E) | (d & Hd & E)];
      apply Ascii.eqb_eq in E; subst d; auto.
  - cbv zeta. split; [vm_compute; reflexivity |].
    eexists. split; [vm_compute; reflexivity |]. split; reflexivity.
Qed.

(** ** The feed-move default *)

(** C4, at the line "G0 X10": the rapid-move code is explicit, yet the
    command is typed as a feed move, and its G parameter is 1. *)
Theorem explicit_rapid_move_becomes_feed_move :
  option_map (fun c => (type c, pG (params c), pX (params c)))
    (parseCommand "G0 X10" 1)
  = Some (G1, Some 1%float, Some 10%float).
Proof. vm_compute. reflexivity. Qed.

(** The other half of the rule holds: a line with a coordinate word and no
    G, M or T word is a feed move. *)

Lemma pG_set_value_letter c v p :
  char_in c value_letters = true -> pG (set_param c v p) = pG p.
Proof.
  intros H. unfold char_in in H. apply existsb_exists in H.
  destruct H as (d & Hd & E). apply Ascii.eqb_eq in E. subst d.
  destruct p. cbn in Hd.
  repeat (destruct Hd as [<- | Hd]; [reflexivity |]). destruct Hd.
Qed.

Lemma processPart_default st word :
  isCodeWord (toUpperCase word) = false ->
  defaultState st ->
  defaultState (processPart st word)
  /\ (ls_commandType st = G1 \/ isCoordinateWord (toUpperCase word) = true ->
      ls_commandType (processPart st word) = G1).
Proof.
  unfold processPart, isCodeWord, isCoordinateWord, wordValue.
  set (part := toUpperCase word).
  intros Hcode Hst.
  destruct (startsWith "N" part) eqn:HN.
  - split; [exact Hst |]. intros [H | H]; [exact H |].
    destruct part as [| c r]; [discriminate H |]. cbn in HN, H.
    apply Ascii.eqb_eq in HN. subst c. discriminate H.
  - set (value := if includes "." (slice1 part) then _ else _) in *.
    destruct (isNaN value) eqn:Hnan; cbn [negb].
    + split; [exact Hst |]. intros [H | H]; [exact H |].
      destruct (first_char part); [| discriminate H].
      rewrite andb_false_r in H. discriminate H.
    + destruct (first_char part) as [c |] eqn:Hc.
      * rewrite Hcode.
        destruct (char_in c value_letters) eqn:Hv.
        -- rewrite (pG_set_value_letter _ _ _ Hv).
           destruct Hst as [(Ht & Hg) | (Ht & Hg)]; rewrite Hg; cbn [falsy_opt].
           ++ rewrite andb_true_r. destruct (char_in c coordinate_letters).
              ** split; [right; split; [reflexivity | now destruct (set_param c value _)] |].
                 reflexivity.
              ** split.
                 --- left. cbn [ls_commandType ls_params].
                     now rewrite (pG_set_value_letter _ _ _ Hv).
                 --- intros [H | H]; [congruence | discriminate H].
           ++ replace (falsy 1) with false by (vm_compute; reflexivity).
              rewrite andb_false_r. split.
              ** right. cbn [ls_commandType ls_params].
                 now rewrite (pG_set_value_letter _ _ _ Hv).
              ** auto.
        -- split; [exact Hst |]. intros [H | H]; [exact H |].
           assert (Hco : char_in c coordinate_letters = false).
           { destruct (char_in c coordinate_letters) eqn:Hco; [| reflexivity].
             unfold char_in in Hco. apply existsb_exists in Hco.
             destruct Hco as (d & Hd & E). apply Ascii.eqb_eq in E. subst d.
             cbn in Hd.
             repeat (destruct Hd as [<- | Hd]; [discriminate Hv |]). destruct Hd. }
           rewrite Hco in H. discriminate H.
      * split; [exact Hst |]. intros [H | H]; [exact H | discriminate H].
Qed.

Lemma coordinate_without_code_is_feed_move line n command :
  parseCommand line n = Some command ->
  (forall w, In w (wordsOf line) -> isCodeWord w = false) ->
  (exists w, In w (wordsOf line) /\ isCoordinateWord w = true) ->
  type command = G1.
Proof.
  unfold parseCommand, wordsOf.
  destruct (isEmpty _); [discriminate |].
  intros [= <-]. cbn [type].
  generalize (split_ws (trim (split_first ";" line))). intros parts.
  assert (Hst : defaultState (mkLineState noParams None OTHER)) by (left; auto).
  assert (Hgen : forall st,
             defaultState st ->
             (forall w, In w (map toUpperCase parts) -> isCodeWord w = false) ->
             (ls_commandType st = G1
              \/ exists w, In w (map toUpperCase parts) /\ isCoordinateWord w = true) ->
             ls_commandType (fold_left processPart parts st) = G1).
  { clear. induction parts as [| p parts IH]; intros st Hst Hno Hsome.
    - destruct Hsome as [H | (w & [] & _)]. exact H.
    - cbn [map fold_left] in *.
      destruct (processPart_default st p (Hno _ (or_introl eq_refl)) Hst)
        as (Hst' & Hty).
      apply IH; [exact Hst' | intros w Hw; apply Hno; now right |].
      destruct Hsome as [H | (w & [<- | Hw] & Hc)]; eauto. }
  intros Hno Hsome. apply Hgen; auto.
Qed.

(** ** Statistics *)

Lemma coordinate_set_param a c v p u :
  coordinate a (set_param c v p) = Some u ->
  (u = v /\ char_in c value_letters = true) \/ coordinate a p = Some u.
Proof.
  destruct p, a, c as [[] [] [] [] [] [] [] []]; cbn; intros H;
    first [ right; exact H | left; split; [congruence | reflexivity] ].
Qed.

Lemma code_letter_not_value c :
  char_in c code_letters = true -> char_in c value_letters = false.
Proof. destruct c as [[] [] [] [] [] [] [] []]; cbn; intros H; congruence. Qed.

Lemma processPart_coords st part :
  coordsValid (ls_params st) -> coordsValid (ls_params (processPart st part)).
Proof.
  intros Hst. unfold processPart.
  set (word := toUpperCase part).
  destruct (startsWith "N" word); [exact Hst |].
  set (value := if includes "." (slice1 word) then _ else _).
  destruct (isNaN value) eqn:Hnan; cbn [negb]; [exact Hst |].
  destruct (first_char word) as [c |]; [| exact Hst].
  destruct (char_in c code_letters) eqn:Hcode.
  - intros a u Hu. cbn [ls_params] in Hu.
    apply coordinate_set_param in Hu. destruct Hu as [(_ & Hv) | Hu].
    + rewrite (code_letter_not_value _ Hcode) in Hv. discriminate Hv.
    + exact (Hst _ _ Hu).
  - destruct (char_in c value_letters); [| exact Hst].
    assert (H1 : coordsValid (set_param c value (ls_params st))).
    { intros a u Hu. apply coordinate_set_param in Hu.
      destruct Hu as [(-> & _) | Hu]; [exact Hnan | exact (Hst _ _ Hu)]. }
    destruct (char_in c coordinate_letters && _); [| exact H1].
    intros a u Hu. cbn [ls_params] in Hu.
    apply coordinate_set_param in Hu. destruct Hu as [(_ & Hv) | Hu].
    + discriminate Hv.
    + exact (H1 _ _ Hu).
Qed.

Lemma parseCommand_coords line n command :
  parseCommand line n = Some command -> coordsValid (params command).
Proof.
  unfold parseCommand. destruct (isEmpty _); [discriminate |].
  intros [= <-]. cbn [params].
  assert (H0 : coordsValid (ls_params (mkLineState noParams None OTHER))).
  { intros [] u Hu; discriminate Hu. }
  revert H0. generalize (mkLineState noParams None OTHER).
  induction (split_ws _) as [| part parts IH]; intros st Hst; [exact Hst |].
  cbn [fold_left]. apply IH. now apply processPart_coords.
Qed.

Lemma valuesOf_notNaN a cmds :
  Forall (fun c => coordsValid (params c)) cmds -> Forall notNaN (valuesOf a cmds).
Proof.
  induction 1 as [| c cmds Hc _ IH]; [constructor |].
  unfold valuesOf. cbn [flat_map]. apply Forall_app. split; [| exact IH].
  destruct (coordinate a (params c)) as [v |] eqn:E; [| constructor].
  constructor; [exact (Hc _ _ E) | constructor].
Qed.

Lemma parseStep_spec acc line index :
  (parseCommand line (index + 1) = None /\ parseStep acc line index = acc)
  \/ exists command,
      parseCommand line (index + 1) = Some command
      /\ a_commands (parseStep acc line index) = a_commands acc ++ [command]
      /\ forall a,
          accMax a (parseStep acc line index)
          = updMax (accMax a acc) (coordinate a (params command))
          /\ accMin a (parseStep acc line index)
             = updMin (accMin a acc) (coordinate a (params command)).
Proof.
  unfold parseStep. destruct (parseCommand line (index + 1)) as [command |].
  - right. exists command. repeat split; destruct a; reflexivity.
  - now left.
Qed.

(** What the [forEach] of [parseGCode] accumulates: the commands of the
    lines, and the running maximum and minimum of each coordinate. *)
Lemma forEach_lines_spec lines index acc :
  exists cmds,
    a_commands (forEach_lines acc lines index) = a_commands acc ++ cmds
    /\ Forall (fun c => coordsValid (params c)) cmds
    /\ forall a,
        accMax a (forEach_lines acc lines index)
        = fold_left Math_max (valuesOf a cmds) (accMax a acc)
        /\ accMin a (forEach_lines acc lines index)
           = fold_left Math_min (valuesOf a cmds) (accMin a acc).
Proof.
  revert index acc. induction lines as [| line lines IH]; intros index acc.
  - exists []. cbn. rewrite app_nil_r. repeat split. constructor.
  - cbn [forEach_lines].
    destruct (IH (S index) (parseStep acc line index)) as (cmds & Hc & Hv & Hm).
    destruct (parseStep_spec acc line index)
      as [(_ & Heq) | (command & Hp & Hcmd & Hstep)].
    + rewrite Heq in *. exists cmds. auto.
    + exists (command :: cmds). split; [| split].
      * rewrite Hc, Hcmd, <- app_assoc. reflexivity.
      * constructor; [eapply parseCommand_coords; eassumption | assumption].
      * intros a. destruct (Hm a) as (Hmax & Hmin). destruct (Hstep a) as (H1 & H2).
        rewrite Hmax, Hmin, H1, H2. unfold valuesOf. cbn [flat_map].
        rewrite !fold_left_app.
        destruct (coordinate a (params command)); split; reflexivity.
Qed.

Lemma sentinel_max l :
  Forall notNaN l -> l <> [] -> isMaxOf (fold_left Math_max l neg_infinity) l.
Proof.
  intros Hl Hne. destruct l as [| v l]; [congruence |].
  apply Forall_cons_iff in Hl. destruct Hl as (Hv & Hl).
  cbn [fold_left]. rewrite (Math_max_neg_infinity _ Hv).
  destruct (fold_Math_max l v Hv Hl) as (_ & Hle & Hall & Hin). split.
  - destruct Hin as [-> | Hin]; [now left | now right].
  - intros u [<- | Hu]; auto.
Qed.

Lemma sentinel_min l :
  Forall notNaN l -> l <> [] -> isMinOf (fold_left Math_min l infinity) l.
Proof.
  intros Hl Hne. destruct l as [| v l]; [congruence |].
  apply Forall_cons_iff in Hl. destruct Hl as (Hv & Hl).
  cbn [fold_left]. rewrite (Math_min_infinity _ Hv).
  destruct (fold_Math_min l v Hv Hl) as (_ & Hle & Hall & Hin). split.
  - destruct Hin as [-> | Hin]; [now left | now right].
  - intros u [<- | Hu]; auto.
Qed.

(** C9, as stated, fails: in the one-line document "X1.0E999" the X
    coordinate appears with the value +Infinity only, and the reported
    minimum of X is 0, which is not a value of X. *)
Lemma infinite_minimum_is_reported_as_zero :
  let document := "X1.0E999"%string in
  let result := parseGCode document in
  valuesOf AxisX (commands result) = [infinity]
  /\ minX (stats result) = 0%float
  /\ ~ isMinOf (minX (stats result)) (valuesOf AxisX (commands result)).
Proof.
  cbv zeta.
  assert (E1 : valuesOf AxisX (commands (parseGCode "X1.0E999")) = [infinity])
    by (vm_compute; reflexivity).
  assert (E2 : minX (stats (parseGCode "X1.0E999")) = 0%float)
    by (vm_compute; reflexivity).
  rewrite E1, E2. repeat split.
  intros ([H | []] & _).
  apply (f_equal (fun v => PrimFloat.eqb v infinity)) in H.
  vm_compute in H. discriminate H.
Qed.

(** C9, amended: for every document and axis, both bounds are 0 when the
    coordinate never appears; otherwise the reported maximum is the maximum
    of the coordinate's values, and the reported minimum their minimum,
    except that a maximum of -Infinity and a minimum of +Infinity are
    reported as 0. *)
Theorem stats_hold_axis_bounds document a :
  let result := parseGCode document in
  let values := valuesOf a (commands result) in
  (values = [] ->
   statMax a (stats result) = 0%float /\ statMin a (stats result) = 0%float)
  /\ (values <> [] ->
      exists M m,
        isMaxOf M values /\ isMinOf m values
        /\ statMax a (stats result)
           = (if strict_eq M neg_infinity then 0%float else M)
        /\ statMin a (stats result)
           = (if strict_eq m infinity then 0%float else m)).
Proof.
  cbv zeta. unfold parseGCode.
  destruct (forEach_lines_spec (split_char LF document) 0 initAcc)
    as (cmds & Hc & Hv & Hm).
  cbn [commands stats]. rewrite Hc. cbn [a_commands initAcc app].
  destruct (Hm a) as (Hmax & Hmin).
  assert (Hsmax : forall s,
             statMax a (mkStats (List.length (split_char LF document))
                          (a_validCommands s)
                          (maxOrZero (a_maxX s)) (maxOrZero (a_maxY s))
                          (maxOrZero (a_maxZ s))
                          (minOrZero (a_minX s)) (minOrZero (a_minY s))
                          (minOrZero (a_minZ s)))
             = maxOrZero (accMax a s)) by (intros s; now destruct a).
  assert (Hsmin : forall s,
             statMin a (mkStats (List.length (split_char LF document))
                          (a_validCommands s)
                          (maxOrZero (a_maxX s)) (maxOrZero (a_maxY s))
                          (maxOrZero (a_maxZ s))
                          (minOrZero (a_minX s)) (minOrZero (a_minY s))
                          (minOrZero (a_minZ s)))
             = minOrZero (accMin a s)) by (intros s; now destruct a).
  rewrite Hsmax, Hsmin, Hmax, Hmin.
  replace (accMax a initAcc) with neg_infinity by now destruct a.
  replace (accMin a initAcc) with infinity by now destruct a.
  pose proof (valuesOf_notNaN a cmds Hv) as Hn.
  split.
  - intros ->. split; reflexivity.
  - intros Hne.
    exists (fold_left Math_max (valuesOf a cmds) neg_infinity),
           (fold_left Math_min (valuesOf a cmds) infinity).
    repeat split; try (now apply sentinel_max); now apply sentinel_min.
Qed.

End ParserProperties.

(* ================================================================== *)
(** * Properties of the frame synthesizer *)
(* ================================================================== *)

Section ViewerProperties.
Import Path Viewer.
Local Open Scope R_scope.

Variable atan2 : R -> R -> R.
Variable ellipsePoint : R -> R -> R -> R -> R -> R -> bool -> R -> R * R.
Variable playbackSpeed : R.

Let speed : R := speedInMmPerSecond playbackSpeed.

(** ** The frames of a straight pair *)













Lemma segmentStep_multi s p1 p2 rest t e segIdx :
  segmentStep atan2 ellipsePoint playbackSpeed s (mkSegment (p1 :: p2 :: rest) t e) segIdx
  = multiPoint atan2 ellipsePoint playbackSpeed t (p1 :: p2 :: rest) segIdx 0 s.
Proof. reflexivity. Qed.

(** ** Time stamps *)

Hypothesis playbackSpeed_pos : 0 < playbackSpeed.












(** ** The final sort *)








(** ** The order of emission *)












End ViewerProperties.

(** The two theorems at a speed of 6000 mm/min, on the straight move from
    the origin to (3, 4, 0). *)



(* ================================================================== *)
(** * Further properties of the path generator *)
(* ================================================================== *)

Section PathGenOrder.
Import JS Path PathGen.

Lemma lineNumbers_app a b : lineNumbers (a ++ b) = lineNumbers a ++ lineNumbers b.
Proof. apply flat_map_app. Qed.

Lemma lineNumbers_closed (c : Segment) segs :
  lineNumbers (match points c with
               | [] => segs
               | _ :: _ => segs ++ [c]
               end)
  = lineNumbers (segs ++ [c]).
Proof.
  destruct (points c) eqn:E; [| reflexivity].
  rewrite lineNumbers_app. unfold lineNumbers at 3. cbn. rewrite E. cbn.
  now rewrite app_nil_r.
Qed.

Lemma lineNumbers_flush this :
  lineNumbers (flush this) = lineNumbers (allSegments this).
Proof.
  unfold flush, allSegments. destruct (currentSegment this) as [c |].
  - apply lineNumbers_closed.
  - now rewrite app_nil_r.
Qed.

Lemma map_lineNumber_setLast a pts :
  map (@lineNumber float) (setLastParams a pts) = map (@lineNumber float) pts.
Proof.
  destruct pts as [| q l]; [reflexivity |].
  destruct (@list_snoc_inv _ (q :: l)) as (l' & t & ->); [discriminate |].
  rewrite setLastParams_snoc, !map_app. reflexivity.
Qed.

(** The open segment once one point more has been pushed. *)
Lemma lineNumbers_snoc_push segs (c : Segment) (p : Point) :
  lineNumbers (segs ++ [push p c]) = lineNumbers (segs ++ [c]) ++ [lineNumber p].
Proof.
  rewrite !lineNumbers_app. unfold lineNumbers at 2 4. cbn.
  rewrite !app_nil_r, map_app, app_assoc. reflexivity.
Qed.

Lemma lineNumbers_snoc_empty segs (seg : Segment) :
  points seg = [] -> lineNumbers (segs ++ [seg]) = lineNumbers segs.
Proof.
  intros E. rewrite lineNumbers_app. unfold lineNumbers at 2. cbn. rewrite E.
  cbn. now rewrite app_nil_r.
Qed.

(** The block that opens a segment keeps the lines emitted so far. *)
Lemma lineNumbers_ensure this t f :
  lineNumbers (fst (ensureSegment this t f) ++ [snd (ensureSegment this t f)])
  = lineNumbers (allSegments this).
Proof.
  unfold allSegments.
  destruct (ensureSegment_cases this t f)
    as [(Hc & ->) | [(c & Hc & _ & ->) | (c & Hc & Ht & Hf & ->)]];
    rewrite Hc; cbn [fst snd].
  - rewrite lineNumbers_snoc_empty by reflexivity. now rewrite app_nil_r.
  - rewrite lineNumbers_snoc_empty by reflexivity. apply lineNumbers_closed.
  - reflexivity.
Qed.

Lemma processLinearMove_lines t this command :
  lineNumbers (allSegments (processLinearMove t this command))
  = lineNumbers (allSegments this) ++ [Parser.lineNumber command].
Proof.
  unfold processLinearMove. set (f := gt _ _).
  pose proof (lineNumbers_ensure this t f) as H.
  destruct (ensureSegment this t f) as (segs, seg). cbn [fst snd] in H.
  unfold allSegments at 1. cbn [segments currentSegment].
  rewrite lineNumbers_snoc_push, H. reflexivity.
Qed.

Lemma processArcMove_lines t this command :
  exists k,
    k <= 2
    /\ lineNumbers (allSegments (processArcMove t this command))
       = lineNumbers (allSegments this) ++ repeat (Parser.lineNumber command) k.
Proof.
  unfold processArcMove.
  destruct (arcSameXY this command);
    [exists 0; split; [lia | cbn; now rewrite app_nil_r] |].
  destruct (arcRadiusTooSmall this command);
    [exists 0; split; [lia | cbn; now rewrite app_nil_r] |].
  set (f := gt _ _).
  pose proof (lineNumbers_ensure this t f) as H.
  destruct (ensureSegment this t f) as (segs, seg). cbn [fst snd] in H.
  unfold allSegments at 1. cbn [segments currentSegment].
  rewrite lineNumbers_snoc_push. cbn [lineNumber].
  destruct (points seg) as [| q rest] eqn:E.
  - exists 2. split; [lia |].
    rewrite lineNumbers_snoc_push, H, <- app_assoc. reflexivity.
  - exists 1. split; [lia |]. cbn [repeat].
    rewrite <- H, !lineNumbers_app. unfold lineNumbers at 2 4.
    cbn [flat_map points]. rewrite map_lineNumber_setLast, E. reflexivity.
Qed.

Lemma processHomeMove_lines this command :
  lineNumbers (allSegments (processHomeMove this command))
  = lineNumbers (allSegments this) ++ [Parser.lineNumber command].
Proof.
  unfold processHomeMove, allSegments at 1. cbn [segments currentSegment].
  rewrite lineNumbers_app. unfold lineNumbers at 2. cbn. f_equal.
  unfold allSegments. destruct (currentSegment this) as [c |].
  - apply lineNumbers_closed.
  - now rewrite app_nil_r.
Qed.

(** Each command appends its own line number, as many times as it emits a
    point. *)
Lemma processCommand_lines this command :
  exists k,
    emitCount command k
    /\ lineNumbers (allSegments (processCommand this command))
       = lineNumbers (allSegments this) ++ repeat (Parser.lineNumber command) k.
Proof.
  assert (Hd : exists k,
             emitCount command k
             /\ lineNumbers (allSegments (dispatch this command))
                = lineNumbers (allSegments this)
                  ++ repeat (Parser.lineNumber command) k).
  { unfold dispatch, emitCount.
    destruct (processArcMove_lines G2 this command) as (k2 & ? & ?).
    destruct (processArcMove_lines G3 this command) as (k3 & ? & ?).
    destruct (Parser.type command);
      try (exists 0; split; [reflexivity | cbn; now rewrite app_nil_r]);
      try (exists 1; split;
           [reflexivity
           | cbn; first [apply processLinearMove_lines | apply processHomeMove_lines]]);
      eauto. }
  unfold processCommand. destruct (Parser.pF _); exact Hd.
Qed.

Lemma run_lines commands : forall st,
  exists counts,
    Forall2 emitCount commands counts
    /\ lineNumbers (allSegments (fold_left processCommand commands st))
       = lineNumbers (allSegments st) ++ repeatedLines commands counts.
Proof.
  induction commands as [| c cs IH]; intros st.
  - exists []. split; [constructor |]. cbn. now rewrite app_nil_r.
  - destruct (processCommand_lines st c) as (k & Hk & Hc).
    destruct (IH (processCommand st c)) as (counts & Hcs & Hl).
    exists (k :: counts). split; [now constructor |].
    cbn [fold_left]. rewrite Hl, Hc, <- app_assoc. reflexivity.
Qed.

(** X1: the points [generatePath] returns follow the order of the commands:
    their line numbers are those of the commands, each repeated as many times
    as the command emitted a point, which is once for a linear move or a
    home instruction, at most twice for an arc, and never for any other
    command. *)
Theorem points_follow_commands this commands :
  exists counts,
    Forall2 emitCount commands counts
    /\ lineNumbers (generatePath this commands) = repeatedLines commands counts.
Proof.
  unfold generatePath, run. rewrite lineNumbers_flush.
  destruct (run_lines commands (reset this)) as (counts & Hc & Hl).
  exists counts. split; [exact Hc | exact Hl].
Qed.

(** X2: no segment [generatePath] returns is empty. *)
Theorem returned_segments_are_nonempty this commands :
  Forall (fun s => points s <> []) (generatePath this commands).
Proof.
  apply Forall_forall. intros s Hs.
  eapply pathOk_In; [apply generatePath_pathOk | exact Hs].
Qed.

Lemma repeatedLines_nil commands : forall counts,
  Forall2 emitCount commands counts ->
  repeatedLines commands counts = [] ->
  existsb alwaysEmits commands = false.
Proof.
  induction commands as [| c cs IH]; intros counts H E; [reflexivity |].
  inversion H as [| ? k ? counts' Hk Hcs]; subst.
  unfold repeatedLines in E. cbn in E. apply app_eq_nil in E. destruct E as (E1 & E2).
  cbn [existsb]. rewrite (IH counts' Hcs E2), orb_false_r.
  unfold emitCount in Hk. unfold alwaysEmits.
  destruct (Parser.type c); try reflexivity; subst k; discriminate E1.
Qed.

Lemma repeatedLines_cons commands : forall counts,
  Forall2 emitCount commands counts ->
  repeatedLines commands counts <> [] ->
  existsb mayEmit commands = true.
Proof.
  induction commands as [| c cs IH]; intros counts H E.
  - inversion H; subst. now contradiction E.
  - inversion H as [| ? k ? counts' Hk Hcs]; subst.
    cbn [existsb]. apply orb_true_iff.
    destruct k as [| k].
    + right. apply (IH counts' Hcs). intros E'. apply E.
      unfold repeatedLines in *. cbn. exact E'.
    + left. unfold emitCount in Hk. unfold mayEmit.
      destruct (Parser.type c); try reflexivity; discriminate Hk.
Qed.

(** X3: [generatePath] returns the empty list only when no command is a
    linear move or a home instruction, and a non-empty list only when some
    command is a move, an arc or a home instruction. *)
Theorem empty_path_means_no_move this commands :
  match generatePath this commands with
  | [] => existsb alwaysEmits commands = false
  | _ :: _ => existsb mayEmit commands = true
  end.
Proof.
  destruct (run_lines commands (reset this)) as (counts & Hc & Hl).
  pose proof (lineNumbers_flush (run this commands)) as Hf.
  unfold run in Hf. rewrite Hl in Hf.
  change (lineNumbers (allSegments (reset this))) with (@nil nat) in Hf.
  cbn [app] in Hf. fold (run this commands) in Hf.
  pose proof (generatePath_pathOk this commands) as Hp.
  unfold generatePath in Hp |- *.
  destruct (flush (run this commands)) as [| s rest] eqn:E.
  - apply (repeatedLines_nil _ _ Hc). now rewrite <- Hf.
  - apply (repeatedLines_cons _ _ Hc). rewrite <- Hf.
    destruct Hp as ((Hne & _) & _).
    unfold lineNumbers. cbn. destruct (points s); [congruence | discriminate].
Qed.

(** ** Feedrate and extrusion *)






Lemma processCommand_extrusion_mode this command :
  isAbsoluteExtrusion (processCommand this command) = isAbsoluteExtrusion this.
Proof.
  assert (Hd : isAbsoluteExtrusion (dispatch this command) = isAbsoluteExtrusion this).
  { unfold dispatch. destruct (Parser.type command); try reflexivity.
    - unfold processLinearMove. now destruct (ensureSegment _ _ _).
    - unfold processLinearMove. now destruct (ensureSegment _ _ _).
    - unfold processArcMove.
      destruct (arcSameXY this command), (arcRadiusTooSmall this command);
        try reflexivity.
      now destruct (ensureSegment _ _ _).
    - unfold processArcMove.
      destruct (arcSameXY this command), (arcRadiusTooSmall this command);
        try reflexivity.
      now destruct (ensureSegment _ _ _). }
  unfold processCommand. destruct (Parser.pF _); exact Hd.
Qed.

(** X5: no command changes the extrusion mode: after any commands, also
    after G91, the generator reads an E parameter as an absolute amount. *)
Theorem extrusion_stays_absolute this commands command :
  let this' := run this commands in
  isAbsoluteExtrusion this' = true
  /\ calculateNewExtrusion this' command
     = match Parser.pE (Parser.params command) with
       | Some e => e
       | None => currentExtrusion this'
       end.
Proof.
  cbv zeta.
  assert (H : isAbsoluteExtrusion (run this commands) = true).
  { unfold run. generalize (eq_refl : isAbsoluteExtrusion (reset this) = true).
    generalize (reset this).
    induction commands as [| c cs IH]; intros st Hst; [exact Hst |].
    cbn [fold_left]. apply IH. now rewrite processCommand_extrusion_mode. }
  split; [exact H |]. unfold calculateNewExtrusion. now rewrite H.
Qed.



Lemma ensureSegment_type this t f : segType (snd (ensureSegment this t f)) = t.
Proof.
  destruct (ensureSegment_cases this t f)
    as [(_ & ->) | [(c & _ & _ & ->) | (c & _ & Ht & _ & ->)]]; try reflexivity.
  exact Ht.
Qed.


(** ** Positions *)

Lemma positionAfter_app v a b :
  positionAfter v (a ++ b) = positionAfter (positionAfter v a) b.
Proof. apply fold_left_app. Qed.

Lemma positionAfter_map pts : forall v,
  positionAfter v pts = fold_left (fun _ q => q) (map (@position float) pts) v.
Proof. induction pts as [| p l IH]; intros v; [reflexivity | apply IH]. Qed.

Lemma positionAfterAll_snoc v l s :
  positionAfterAll v (l ++ [s]) = positionAfter (positionAfterAll v l) (points s).
Proof. unfold positionAfterAll. now rewrite fold_left_app. Qed.

Lemma arcsLinked_snoc l : forall v s,
  arcsLinked v (l ++ [s])
  <-> arcsLinked v l
      /\ (isArc (segType s) = true ->
          match points s with
          | leading :: _ => position leading = positionAfterAll v l
          | [] => True
          end).
Proof.
  induction l as [| a l IH]; intros v s; cbn [app arcsLinked].
  - cbn. tauto.
  - rewrite IH. cbn. tauto.
Qed.

Lemma position_setLast a pts :
  map (@position float) (setLastParams a pts) = map (@position float) pts.
Proof.
  destruct pts as [| q l]; [reflexivity |].
  destruct (@list_snoc_inv _ (q :: l)) as (l' & t & ->); [discriminate |].
  rewrite setLastParams_snoc, !map_app. reflexivity.
Qed.

(** Only the type of a segment and the positions of its points matter. *)
Lemma linked_snoc_ext v l s s' :
  segType s' = segType s ->
  map (@position float) (points s') = map (@position float) (points s) ->
  arcsLinked v (l ++ [s]) ->
  arcsLinked v (l ++ [s'])
  /\ positionAfterAll v (l ++ [s']) = positionAfterAll v (l ++ [s]).
Proof.
  intros Ht Hm H. apply arcsLinked_snoc in H. destruct H as (Hl & Hs). split.
  - apply arcsLinked_snoc. split; [exact Hl |]. rewrite Ht. intros Ha.
    specialize (Hs Ha).
    destruct (points s) as [| q r], (points s') as [| q' r'];
      try discriminate Hm; [trivial |].
    cbn in Hm. injection Hm as Hq _. now rewrite Hq.
  - rewrite !positionAfterAll_snoc, !positionAfter_map. now rewrite Hm.
Qed.

Lemma linked_snoc_empty v l s :
  points s = [] ->
  (arcsLinked v (l ++ [s]) <-> arcsLinked v l)
  /\ positionAfterAll v (l ++ [s]) = positionAfterAll v l.
Proof.
  intros E. split.
  - rewrite arcsLinked_snoc, E. tauto.
  - rewrite positionAfterAll_snoc, E. reflexivity.
Qed.

Lemma linked_closed v segs (c : Segment) :
  (arcsLinked v (match points c with
                 | [] => segs
                 | _ :: _ => segs ++ [c]
                 end)
   <-> arcsLinked v (segs ++ [c]))
  /\ positionAfterAll v (match points c with
                         | [] => segs
                         | _ :: _ => segs ++ [c]
                         end)
     = positionAfterAll v (segs ++ [c]).
Proof.
  destruct (points c) eqn:E.
  - destruct (linked_snoc_empty v segs c E) as (H1 & H2). split; [now symmetry | now symmetry].
  - split; [reflexivity | reflexivity].
Qed.

Lemma linked_push v segs seg p :
  arcsLinked v (segs ++ [seg]) ->
  (isArc (segType seg) = true -> points seg = [] ->
   position p = positionAfterAll v (segs ++ [seg])) ->
  arcsLinked v (segs ++ [push p seg])
  /\ positionAfterAll v (segs ++ [push p seg]) = position p.
Proof.
  intros H Hp. split.
  - apply arcsLinked_snoc. apply arcsLinked_snoc in H. destruct H as (Hl & Hs).
    split; [exact Hl |]. cbn [segType push points]. intros Ha.
    specialize (Hs Ha). specialize (Hp Ha).
    destruct (points seg) as [| q r] eqn:E; cbn [app].
    + rewrite (Hp eq_refl), positionAfterAll_snoc, E. reflexivity.
    + exact Hs.
  - rewrite positionAfterAll_snoc. cbn [points push].
    rewrite positionAfter_app. reflexivity.
Qed.

(** The block that opens a segment keeps the path. *)
Lemma linked_ensure this t f :
  arcsLinked origin (allSegments this) ->
  arcsLinked origin (fst (ensureSegment this t f) ++ [snd (ensureSegment this t f)])
  /\ positionAfterAll origin
       (fst (ensureSegment this t f) ++ [snd (ensureSegment this t f)])
     = positionAfterAll origin (allSegments this).
Proof.
  unfold allSegments.
  destruct (ensureSegment_cases this t f)
    as [(Hc & ->) | [(c & Hc & _ & ->) | (c & Hc & Ht & Hf & ->)]];
    rewrite Hc; cbn [fst snd]; intros H.
  - rewrite app_nil_r in *.
    destruct (linked_snoc_empty origin (segments this) (emptySegment t f) eq_refl)
      as (H1 & H2).
    split; [now apply H1 | exact H2].
  - destruct (linked_closed origin (segments this) c) as (H1 & H2).
    set (closed := match points c with
                   | [] => segments this
                   | _ :: _ => segments this ++ [c]
                   end) in *.
    destruct (linked_snoc_empty origin closed (emptySegment t f) eq_refl)
      as (H3 & H4).
    split; [apply H3, H1, H | exact (eq_trans H4 H2)].
  - split; [exact H | reflexivity].
Qed.

Lemma linked_linear t this command :
  isArc t = false -> linked this -> linked (processLinearMove t this command).
Proof.
  intros Ht (Ha & Hp). unfold linked, processLinearMove. set (f := gt _ _).
  destruct (linked_ensure this t f Ha) as (H1 & H2).
  pose proof (ensureSegment_type this t f) as Hty.
  destruct (ensureSegment this t f) as (segs, seg). cbn [fst snd] in *.
  unfold allSegments. cbn [segments currentSegment currentPosition].
  set (p := mkPoint _ _ _ _ _ _).
  destruct (linked_push origin segs seg p H1) as (H3 & H4).
  { rewrite Hty, Ht. discriminate. }
  split; [exact H3 | now rewrite H4].
Qed.

Lemma linked_arc t this command :
  linked this -> linked (processArcMove t this command).
Proof.
  intros (Ha & Hp). unfold processArcMove.
  destruct (arcSameXY this command); [now split |].
  destruct (arcRadiusTooSmall this command); [now split |].
  unfold linked. set (f := gt _ _).
  destruct (linked_ensure this t f Ha) as (H1 & H2).
  destruct (ensureSegment this t f) as (segs, seg). cbn [fst snd] in *.
  unfold allSegments. cbn [segments currentSegment currentPosition].
  set (endPoint := mkPoint (arcEndPosition this command) _ _ _ _ _).
  destruct (points seg) as [| q rest] eqn:E.
  - set (leading := mkPoint (currentPosition this) _ _ _ _ _).
    destruct (linked_push origin segs seg leading H1) as (H3 & H4).
    { intros _ _. cbn [position leading]. now rewrite H2. }
    destruct (linked_push origin segs (push leading seg) endPoint H3) as (H5 & H6).
    { intros _ Hn. cbn [points push] in Hn. rewrite E in Hn. discriminate Hn. }
    split; [exact H5 | now rewrite H6].
  - set (seg1 := mkSegment _ _ _).
    destruct (linked_snoc_ext origin segs seg seg1) as (H3 & H4);
      [reflexivity | | exact H1 |].
    { cbn [points seg1]. rewrite <- E. apply position_setLast. }
    destruct (linked_push origin segs seg1 endPoint H3) as (H5 & H6).
    { intros _ Hn. cbn [points seg1] in Hn.
      apply (f_equal (map (@position float))) in Hn.
      rewrite position_setLast in Hn. discriminate Hn. }
    split; [exact H5 | now rewrite H6].
Qed.

Lemma linked_home this command : linked this -> linked (processHomeMove this command).
Proof.
  intros (Ha & Hp). unfold linked, processHomeMove, allSegments.
  cbn [segments currentSegment currentPosition].
  assert (Hc : arcsLinked origin
                 (match currentSegment this with
                  | Some cs => match points cs with
                               | [] => segments this
                               | _ :: _ => segments this ++ [cs]
                               end
                  | None => segments this
                  end)).
  { unfold allSegments in Ha. destruct (currentSegment this) as [c |].
    - now apply (linked_closed origin (segments this) c).
    - now rewrite app_nil_r in Ha. }
  split.
  - apply arcsLinked_snoc. split; [exact Hc |]. cbn. discriminate.
  - rewrite positionAfterAll_snoc. reflexivity.
Qed.

Lemma linked_processCommand this command :
  linked this -> linked (processCommand this command).
Proof.
  intros H.
  assert (Hd : linked (dispatch this command)).
  { unfold dispatch. destruct (Parser.type command); try exact H.
    - now apply linked_linear.
    - now apply linked_linear.
    - now apply linked_arc.
    - now apply linked_arc.
    - now apply linked_home. }
  unfold processCommand. destruct (Parser.pF _); exact Hd.
Qed.

Lemma linked_run this commands : linked (run this commands).
Proof.
  unfold run. assert (H : linked (reset this)) by (split; reflexivity).
  revert H. generalize (reset this).
  induction commands as [| c cs IH]; intros st H; [exact H |].
  cbn [fold_left]. apply IH. now apply linked_processCommand.
Qed.

(** X7: the generator stands where its path ends, and no arc starts in
    mid-air: after any commands the current position is the position of
    the last point [generatePath] returns (the origin when it returns none),
    and every arc segment returned opens with a point at the position the
    path had reached before that segment. *)
Theorem arcs_start_where_the_path_stands this commands :
  arcsLinked origin (generatePath this commands)
  /\ currentPosition (run this commands)
     = positionAfterAll origin (generatePath this commands).
Proof.
  destruct (linked_run this commands) as (Ha & Hp).
  unfold generatePath, flush. unfold allSegments in Ha, Hp.
  destruct (currentSegment (run this commands)) as [c |].
  - destruct (linked_closed origin (segments (run this commands)) c) as (H1 & H2).
    split; [now apply H1 | now rewrite H2].
  - rewrite app_nil_r in Ha, Hp. split; assumption.
Qed.

End PathGenOrder.



(** * The parser, line by line *)

Section ParserStructure.
Import JS Parser.

Lemma isEmpty_trim s : isEmpty (trim s) = all_chars isWhiteSpace s.
Proof.
  unfold trim. induction s as [| c r IH]; [reflexivity |].
  cbn [trimStart all_chars]. destruct (isWhiteSpace c) eqn:E; [exact IH |].
  cbn [trimEnd]. rewrite E. reflexivity.
Qed.

Lemma parseCommand_fields line n command :
  parseCommand line n = Some command -> lineNumber command = n /\ raw command = line.
Proof.
  unfold parseCommand. destruct (isEmpty _); [discriminate |].
  intros [= <-]. split; reflexivity.
Qed.

(** X8: [parseCommand] drops a line exactly when the text before its first
    semicolon is white space only, and [validateGCode] reports nothing for
    such a line; every other line gives a command that carries the line's
    number and its unchanged text. *)
Theorem only_blank_lines_are_dropped line n index :
  if all_chars isWhiteSpace (split_first ";" line)
  then parseCommand line n = None /\ validateLine line index = []
  else exists command,
      parseCommand line n = Some command
      /\ lineNumber command = n /\ raw command = line.
Proof.
  rewrite <- isEmpty_trim. unfold parseCommand, validateLine.
  destruct (isEmpty (trim (split_first ";" line))).
  - split; reflexivity.
  - eexists. split; [reflexivity |]. split; reflexivity.
Qed.

Lemma split_char_aux_comment a : forall cur b,
  hd EmptyString (split_char_aux ";" cur (a ++ String ";" b))
  = hd EmptyString (split_char_aux ";" cur a).
Proof.
  induction a as [| c r IH]; intros cur b; [reflexivity |].
  cbn [String.append split_char_aux]. destruct (Ascii.eqb c ";"); [reflexivity |].
  apply IH.
Qed.

Lemma split_first_hd sep s : split_first sep s = hd EmptyString (split_char sep s).
Proof. unfold split_first. now destruct (split_char sep s). Qed.

Lemma split_first_comment a b :
  split_first ";" (a ++ String ";" b) = split_first ";" a.
Proof. rewrite !split_first_hd. apply split_char_aux_comment. Qed.

(** X9: text after a semicolon is a comment: appending a semicolon and any
    text to a line changes neither the errors reported for it nor the
    command read from it, except for the [raw] text the command keeps. *)
Theorem comments_are_ignored line comment n index :
  let commented := (line ++ String ";" comment)%string in
  parseCommand commented n = option_map (withRaw commented) (parseCommand line n)
  /\ validateLine commented index = validateLine line index.
Proof.
  cbv zeta. unfold parseCommand, validateLine. rewrite split_first_comment.
  destruct (isEmpty _); split; reflexivity.
Qed.

(** ** The commands of a document *)

Lemma split_char_aux_length sep s : forall cur,
  1 <= List.length (split_char_aux sep cur s).
Proof.
  induction s as [| c r IH]; intros cur; cbn [split_char_aux].
  - cbn. lia.
  - destruct (Ascii.eqb c sep); [cbn; lia | apply IH].
Qed.

(** What the [forEach] of [parseGCode] appends: the commands of the lines
    that are not dropped, in the order of the lines. *)
Lemma forEach_lines_commands lines : forall index acc,
  exists cmds,
    a_commands (forEach_lines acc lines index) = a_commands acc ++ cmds
    /\ a_validCommands (forEach_lines acc lines index)
       = a_validCommands acc + List.length cmds
    /\ List.length cmds <= List.length lines
    /\ StronglySorted lt (map lineNumber cmds)
    /\ Forall (fun c => index < lineNumber c) cmds
    /\ forall c,
        In c cmds
        <-> exists i line,
            nth_error lines i = Some line
            /\ parseCommand line (index + i + 1) = Some c.
Proof.
  induction lines as [| line lines IH]; intros index acc.
  - exists []. cbn [forEach_lines List.length map]. rewrite app_nil_r.
    repeat split; try lia; try constructor.
    + intros [].
    + intros (i & l & Hi & _). destruct i; discriminate Hi.
  - cbn [forEach_lines].
    assert (Hstep : match parseCommand line (index + 1) with
                    | Some command =>
                        a_commands (parseStep acc line index)
                        = a_commands acc ++ [command]
                        /\ a_validCommands (parseStep acc line index)
                           = a_validCommands acc + 1
                    | None => parseStep acc line index = acc
                    end).
    { unfold parseStep. destruct (parseCommand line (index + 1)); [split |]; reflexivity. }
    destruct (IH (S index) (parseStep acc line index))
      as (cmds & Hc & Hv & Hl & Hs & Hlow & Hin).
    destruct (parseCommand line (index + 1)) as [command |] eqn:Hp.
    + exists (command :: cmds). destruct Hstep as (Hsc & Hsv).
      rewrite Hsc in Hc. rewrite Hsv in Hv.
      destruct (parseCommand_fields _ _ _ Hp) as (Hn & _).
      split; [now rewrite Hc, <- app_assoc |].
      split; [rewrite Hv; cbn [List.length]; lia |].
      split; [cbn [List.length]; lia |].
      split; [| split].
      * cbn [map]. constructor; [exact Hs |].
        apply Forall_map. eapply Forall_impl; [| exact Hlow]. cbn. lia.
      * constructor; [lia |]. eapply Forall_impl; [| exact Hlow]. cbn. lia.
      * intros c. split.
        -- intros [<- | H].
           ++ exists 0, line. split; [reflexivity |].
              now replace (index + 0 + 1) with (index + 1) by lia.
           ++ apply Hin in H. destruct H as (i & l & Hi & Hpc).
              exists (S i), l. split; [exact Hi |].
              now replace (index + S i + 1) with (S index + i + 1) by lia.
        -- intros (i & l & Hi & Hpc). destruct i as [| i].
           ++ left. cbn in Hi. injection Hi as <-.
              replace (index + 0 + 1) with (index + 1) in Hpc by lia. congruence.
           ++ right. apply Hin. exists i, l. split; [exact Hi |].
              now replace (S index + i + 1) with (index + S i + 1) by lia.
    + exists cmds. rewrite Hstep in *.
      split; [exact Hc |]. split; [exact Hv |].
      split; [cbn [List.length]; lia |]. split; [exact Hs |].
      split; [eapply Forall_impl; [| exact Hlow]; cbn; lia |].
      intros c. rewrite Hin. split.
      * intros (i & l & Hi & Hpc). exists (S i), l. split; [exact Hi |].
        now replace (index + S i + 1) with (S index + i + 1) by lia.
      * intros (i & l & Hi & Hpc). destruct i as [| i].
        -- cbn in Hi. injection Hi as <-.
           replace (index + 0 + 1) with (index + 1) in Hpc by lia. congruence.
        -- exists i, l. split; [exact Hi |].
           now replace (S index + i + 1) with (index + S i + 1) by lia.
Qed.

(** X10: [parseGCode] returns the commands of the lines that are not
    dropped, in the order of the lines: [totalLines] is the number of lines
    (at least one, also for the empty document), [validCommands] is the
    number of commands and at most [totalLines], the line numbers of the
    commands increase strictly, and a command is returned exactly when
    [parseCommand] yields it for some line and that line's 1-based number. *)
Theorem commands_are_the_parsed_lines content :
  let r := parseGCode content in
  let lines := split_char LF content in
  totalLines (stats r) = List.length lines
  /\ 1 <= totalLines (stats r)
  /\ validCommands (stats r) = List.length (commands r)
  /\ validCommands (stats r) <= totalLines (stats r)
  /\ StronglySorted lt (map lineNumber (commands r))
  /\ forall c,
      In c (commands r)
      <-> exists i line,
          nth_error lines i = Some line /\ parseCommand line (i + 1) = Some c.
Proof.
  cbv zeta. unfold parseGCode. cbn [stats commands totalLines validCommands].
  destruct (forEach_lines_commands (split_char LF content) 0 initAcc)
    as (cmds & Hc & Hv & Hl & Hs & _ & Hin).
  cbn [a_commands initAcc app] in Hc. cbn [a_validCommands initAcc] in Hv.
  rewrite Hc, Hv. cbn [Nat.add].
  split; [reflexivity |].
  split; [apply split_char_aux_length |].
  split; [reflexivity |]. split; [exact Hl |]. split; [exact Hs |].
  exact Hin.
Qed.

(** ** The parameters of a command *)

Lemma valueParam_set_param c d v p u :
  valueParam c (set_param d v p) = Some u ->
  (u = v /\ char_in d value_letters = true) \/ valueParam c p = Some u.
Proof.
  destruct p. unfold valueParam.
  destruct c as [[] [] [] [] [] [] [] []]; try discriminate;
    destruct d as [[] [] [] [] [] [] [] []]; cbn; intros H;
    first [ right; exact H | left; split; [congruence | reflexivity] ].
Qed.

Lemma processPart_values st part :
  valuesValid (ls_params st) -> valuesValid (ls_params (processPart st part)).
Proof.
  intros Hst. unfold processPart.
  set (word := toUpperCase part).
  destruct (startsWith "N" word); [exact Hst |].
  set (value := if includes "." (slice1 word) then _ else _).
  destruct (isNaN value) eqn:Hnan; cbn [negb]; [exact Hst |].
  destruct (first_char word) as [c |]; [| exact Hst].
  destruct (char_in c code_letters) eqn:Hcode.
  - intros a u Hu. cbn [ls_params] in Hu.
    apply valueParam_set_param in Hu. destruct Hu as [(_ & Hv) | Hu].
    + rewrite (code_letter_not_value _ Hcode) in Hv. discriminate Hv.
    + exact (Hst _ _ Hu).
  - destruct (char_in c value_letters); [| exact Hst].
    assert (H1 : valuesValid (set_param c value (ls_params st))).
    { intros a u Hu. apply valueParam_set_param in Hu.
      destruct Hu as [(-> & _) | Hu]; [exact Hnan | exact (Hst _ _ Hu)]. }
    destruct (char_in c coordinate_letters && _); [| exact H1].
    intros a u Hu. cbn [ls_params] in Hu.
    apply valueParam_set_param in Hu. destruct Hu as [(_ & Hv) | Hu].
    + discriminate Hv.
    + exact (H1 _ _ Hu).
Qed.

(** X11: whatever the line, none of the parameters X, Y, Z, E, F, H, S, I,
    J, K, R of the command read from it is NaN: a word whose number cannot
    be read leaves no parameter. *)
Theorem stored_values_are_numbers line n :
  match parseCommand line n with
  | Some command => valuesValid (params command)
  | None => True
  end.
Proof.
  unfold parseCommand. destruct (isEmpty _); [trivial |]. cbn [params].
  assert (H0 : valuesValid (ls_params (mkLineState noParams None OTHER))).
  { intros c u Hu. unfold valueParam in Hu. cbn in Hu.
    destruct c as [[] [] [] [] [] [] [] []]; discriminate Hu. }
  revert H0. generalize (mkLineState noParams None OTHER).
  induction (split_ws _) as [| part parts IH]; intros st Hst; [exact Hst |].
  cbn [fold_left]. apply IH. now apply processPart_values.
Qed.

Lemma coordinate_letter_is_value c :
  char_in c coordinate_letters = true -> char_in c value_letters = true.
Proof. destruct c as [[] [] [] [] [] [] [] []]; cbn; intros H; congruence. Qed.

(** A word that is neither a code nor a coordinate keeps the type and the
    G parameter. *)
Lemma processPart_no_coordinate st word :
  isCodeWord (toUpperCase word) = false ->
  isCoordinateWord (toUpperCase word) = false ->
  ls_commandType (processPart st word) = ls_commandType st
  /\ pG (ls_params (processPart st word)) = pG (ls_params st).
Proof.
  unfold processPart, isCodeWord, isCoordinateWord, wordValue.
  set (part := toUpperCase word). intros Hcode Hco.
  destruct (startsWith "N" part); [split; reflexivity |].
  set (value := if includes "." (slice1 part) then _ else _) in *.
  destruct (isNaN value); cbn [negb] in *; [split; reflexivity |].
  destruct (first_char part) as [c |]; [| split; reflexivity].
  rewrite Hcode. rewrite andb_true_r in Hco. rewrite Hco. cbn [andb].
  destruct (char_in c value_letters) eqn:Hv; [| split; reflexivity].
  cbn [ls_commandType ls_params]. split; [reflexivity |].
  now apply pG_set_value_letter.
Qed.

Lemma fold_processPart_default parts : forall st,
  defaultState st ->
  (forall w, In w (map toUpperCase parts) -> isCodeWord w = false) ->
  defaultState (fold_left processPart parts st)
  /\ (ls_commandType (fold_left processPart parts st) = G1
      <-> ls_commandType st = G1
          \/ existsb isCoordinateWord (map toUpperCase parts) = true).
Proof.
  induction parts as [| p parts IH]; intros st Hst Hno.
  - cbn. split; [exact Hst |]. split; [now left | now intros [H | H]].
  - cbn [map fold_left existsb] in *.
    destruct (processPart_default st p (Hno _ (or_introl eq_refl)) Hst)
      as (Hst' & Hty).
    destruct (IH (processPart st p) Hst' (fun w Hw => Hno w (or_intror Hw)))
      as (Hd & Hiff).
    split; [exact Hd |]. rewrite Hiff, orb_true_iff.
    destruct (isCoordinateWord (toUpperCase p)) eqn:Hco.
    + rewrite (Hty (or_intror eq_refl)). tauto.
    + destruct (processPart_no_coordinate st p (Hno _ (or_introl eq_refl)) Hco)
        as (-> & _).
      split; [intros [H | H]; [now left | now right; right] |].
      intros [H | [H | H]]; [now left | discriminate H | now right].
Qed.

(** X12: the type of a line without a G, M or T word: the feed move G1,
    with the G parameter set to 1, when one of its words is a coordinate
    X, Y, Z or E with a number, and [OTHER], with no G parameter, when none
    is. *)
Theorem type_of_line_without_code line n command :
  parseCommand line n = Some command ->
  (forall w, In w (wordsOf line) -> isCodeWord w = false) ->
  type command = (if existsb isCoordinateWord (wordsOf line) then G1 else OTHER)
  /\ pG (params command)
     = (if existsb isCoordinateWord (wordsOf line) then Some 1%float else None).
Proof.
  unfold parseCommand, wordsOf.
  destruct (isEmpty _); [discriminate |].
  intros [= <-] Hno. cbn [type params].
  assert (Hst : defaultState (mkLineState noParams None OTHER)) by (left; auto).
  destruct (fold_processPart_default _ _ Hst Hno) as (Hd & Hiff).
  cbn [ls_commandType] in Hiff.
  destruct (existsb isCoordinateWord _).
  - assert (Ht : ls_commandType
                   (fold_left processPart
                      (split_ws (trim (split_first ";" line)))
                      (mkLineState noParams None OTHER)) = G1)
      by (apply Hiff; now right).
    destruct Hd as [(Ho & _) | (_ & Hg)]; [congruence |]. now split.
  - destruct Hd as [(Ho & Hg) | (Ht & _)]; [now split |].
    apply Hiff in Ht. destruct Ht as [Ht | Ht]; discriminate Ht.
Qed.

(** ** The errors of a document *)

Lemma validateLine_cases line index :
  validateLine line index = []
  \/ exists e, validateLine line index = [e] /\ errLine e = index + 1.
Proof.
  unfold validateLine. destruct (isEmpty _); [now left |].
  destruct (linePattern _) as [rest |]; [| right; eexists; split; reflexivity].
  destruct (firstInvalidPart _); [right; eexists; split; reflexivity |].
  destruct (split_ws rest); [right; eexists; split; reflexivity | now left].
Qed.

Lemma validateLines_order lines : forall index,
  StronglySorted lt (map errLine (validateLines lines index))
  /\ Forall (fun e => index < errLine e <= index + List.length lines)
       (validateLines lines index).
Proof.
  induction lines as [| line lines IH]; intros index; cbn [validateLines].
  - split; constructor.
  - destruct (IH (S index)) as (Hs & Hr).
    assert (Hr' : Forall (fun e => index + 1 < errLine e
                                   <= index + List.length (line :: lines))
                    (validateLines lines (S index))).
    { eapply Forall_impl; [| exact Hr]. cbn. lia. }
    destruct (validateLine_cases line index) as [-> | (e & -> & He)]; cbn [app].
    + split; [exact Hs |]. eapply Forall_impl; [| exact Hr']. cbn. lia.
    + split.
      * cbn [map]. constructor; [exact Hs |]. apply Forall_map.
        eapply Forall_impl; [| exact Hr']. cbn. lia.
      * constructor; [cbn [List.length]; lia |].
        eapply Forall_impl; [| exact Hr']. cbn. lia.
Qed.

(** X13: [validateGCode] reports at most one error per line, in the order
    of the lines: the line numbers of its errors increase strictly and lie
    between 1 and the number of lines; the document is valid exactly when
    there is no error. *)
Theorem errors_are_in_line_order content :
  let v := validateGCode content in
  StronglySorted lt (map errLine (errors v))
  /\ Forall (fun e => 1 <= errLine e <= totalLines (stats (parseGCode content)))
       (errors v)
  /\ (isValid v = true <-> errors v = []).
Proof.
  cbv zeta. unfold validateGCode, parseGCode.
  cbn [errors isValid stats totalLines].
  destruct (validateLines_order (split_char LF content) 0) as (Hs & Hr).
  split; [exact Hs |]. split.
  - eapply Forall_impl; [| exact Hr]. cbn. lia.
  - destruct (validateLines _ 0); split; intros H; try reflexivity; discriminate H.
Qed.

(** ** Documents joined by a line feed *)

Lemma split_char_aux_app sep a : forall cur b,
  split_char_aux sep cur (a ++ String sep b)
  = split_char_aux sep cur a ++ split_char_aux sep EmptyString b.
Proof.
  induction a as [| c r IH]; intros cur b; cbn [String.append split_char_aux].
  - now rewrite Ascii.eqb_refl.
  - destruct (Ascii.eqb c sep); [cbn [app]; f_equal |]; apply IH.
Qed.

Lemma validateLine_shift k line index :
  validateLine line (k + index) = map (shiftError k) (validateLine line index).
Proof.
  unfold validateLine. destruct (isEmpty _); [reflexivity |].
  destruct (linePattern _) as [rest |];
    [| cbn; now rewrite Nat.add_assoc].
  destruct (firstInvalidPart _); [cbn; now rewrite Nat.add_assoc |].
  destruct (split_ws rest); [cbn; now rewrite Nat.add_assoc | reflexivity].
Qed.

Lemma validateLines_shift k lines : forall index,
  validateLines lines (k + index) = map (shiftError k) (validateLines lines index).
Proof.
  induction lines as [| line lines IH]; intros index; [reflexivity |].
  cbn [validateLines]. rewrite map_app, validateLine_shift. f_equal.
  rewrite <- IH. f_equal. lia.
Qed.

Lemma validateLines_app l1 l2 : forall index,
  validateLines (l1 ++ l2) index
  = validateLines l1 index ++ validateLines l2 (List.length l1 + index).
Proof.
  induction l1 as [| line l1 IH]; intros index; [reflexivity |].
  cbn [app validateLines List.length]. rewrite <- app_assoc. f_equal.
  rewrite IH. f_equal. f_equal. lia.
Qed.

(** X14: validation goes line by line: the errors of two documents joined
    by a line feed are the errors of the first followed by the errors of
    the second, their line numbers moved down by the number of lines of the
    first; the joined document is valid exactly when both are. *)
Theorem validation_of_joined_documents a b :
  let joined := (a ++ String LF b)%string in
  errors (validateGCode joined)
  = errors (validateGCode a)
    ++ map (shiftError (totalLines (stats (parseGCode a))))
         (errors (validateGCode b))
  /\ isValid (validateGCode joined)
     = isValid (validateGCode a) && isValid (validateGCode b).
Proof.
  cbv zeta. unfold validateGCode, parseGCode, split_char.
  cbn [errors isValid stats totalLines].
  rewrite split_char_aux_app, validateLines_app, validateLines_shift.
  split; [reflexivity |].
  destruct (validateLines (split_char_aux LF "" a) 0); [| reflexivity].
  now destruct (validateLines (split_char_aux LF "" b) 0).
Qed.

Lemma parseCommand_shift k line n :
  parseCommand line (k + n) = option_map (shiftCommand k) (parseCommand line n).
Proof. unfold parseCommand. now destruct (isEmpty _). Qed.

Lemma forEach_lines_app l1 l2 : forall acc index,
  forEach_lines acc (l1 ++ l2) index
  = forEach_lines (forEach_lines acc l1 index) l2 (List.length l1 + index).
Proof.
  induction l1 as [| line l1 IH]; intros acc index; [reflexivity |].
  cbn [app forEach_lines List.length]. rewrite IH. f_equal. lia.
Qed.

(** The commands a later run of the [forEach] appends are those of a run
    from the start, moved down. *)
Lemma forEach_lines_shift k lines : forall index acc acc',
  exists cmds,
    a_commands (forEach_lines acc lines index) = a_commands acc ++ cmds
    /\ a_validCommands (forEach_lines acc lines index)
       = a_validCommands acc + List.length cmds
    /\ a_commands (forEach_lines acc' lines (k + index))
       = a_commands acc' ++ map (shiftCommand k) cmds
    /\ a_validCommands (forEach_lines acc' lines (k + index))
       = a_validCommands acc' + List.length cmds.
Proof.
  induction lines as [| line lines IH]; intros index acc acc'.
  - exists []. cbn. rewrite !app_nil_r. repeat split; lia.
  - cbn [forEach_lines].
    destruct (IH (S index) (parseStep acc line index) (parseStep acc' line (k + index)))
      as (cmds & H1 & H2 & H3 & H4).
    replace (k + S index) with (S (k + index)) in H3, H4 by lia.
    rewrite H1, H2, H3, H4. unfold parseStep.
    replace (k + index + 1) with (k + (index + 1)) by lia.
    rewrite (parseCommand_shift k line (index + 1)).
    destruct (parseCommand line (index + 1)) as [command |]; cbn [option_map].
    + exists (command :: cmds).
      cbn [a_commands a_validCommands map List.length params shiftCommand].
      rewrite <- !app_assoc. repeat split; try reflexivity; lia.
    + exists cmds. repeat split; reflexivity.
Qed.

(** X15: parsing goes line by line: the commands of two documents joined by
    a line feed are the commands of the first followed by the commands of
    the second, their line numbers moved down by the number of lines of the
    first; the numbers of lines and of commands add up. *)
Theorem commands_of_joined_documents a b :
  let ra := parseGCode a in
  let rb := parseGCode b in
  let r := parseGCode (a ++ String LF b) in
  commands r
  = commands ra ++ map (shiftCommand (totalLines (stats ra))) (commands rb)
  /\ totalLines (stats r) = totalLines (stats ra) + totalLines (stats rb)
  /\ validCommands (stats r) = validCommands (stats ra) + validCommands (stats rb).
Proof.
  cbv zeta. unfold parseGCode, split_char.
  cbn [commands stats totalLines validCommands].
  rewrite split_char_aux_app, forEach_lines_app, length_app.
  set (la := split_char_aux LF "" a). set (lb := split_char_aux LF "" b).
  destruct (forEach_lines_shift (List.length la) lb 0 initAcc
              (forEach_lines initAcc la 0)) as (cmds & H1 & H2 & H3 & H4).
  rewrite H1, H2, H3, H4. cbn [a_commands a_validCommands initAcc app Nat.add].
  repeat split; reflexivity.
Qed.

End ParserStructure.

Lemma type_of_line_without_code_witness :
  match Parser.parseCommand "X10 Y5" 3 with
  | Some command =>
      Parser.type command = Parser.G1
      /\ Parser.pG (Parser.params command) = Some 1%float
  | None => False
  end.
Proof.
  destruct (Parser.parseCommand "X10 Y5" 3) as [command |] eqn:E;
    [| vm_compute in E; discriminate E].
  apply (type_of_line_without_code "X10 Y5" 3 command E).
  intros w Hw. vm_compute in Hw.
  destruct Hw as [<- | [<- | []]]; reflexivity.
Defined.

(** * From the document to the path *)

Section Pipeline.

Lemma repeat_sorted a k : forall l,
  StronglySorted le l -> Forall (le a) l -> StronglySorted le (repeat a k ++ l).
Proof.
  induction k as [| k IH]; intros l Hs Hl; [exact Hs |].
  cbn [repeat app]. constructor; [now apply IH |].
  apply Forall_app. split; [| exact Hl].
  apply Forall_forall. intros n Hn. apply repeat_spec in Hn. subst n. lia.
Qed.

Lemma repeatedLines_sorted commands : forall counts,
  StronglySorted lt (map Parser.lineNumber commands) ->
  StronglySorted le (PathGen.repeatedLines commands counts)
  /\ Forall (fun n => In n (map Parser.lineNumber commands))
       (PathGen.repeatedLines commands counts).
Proof.
  induction commands as [| c cs IH]; intros counts Hs.
  - split; constructor.
  - destruct counts as [| k ks]; [split; constructor |].
    cbn [map] in Hs. inversion Hs as [| ? ? Hs' Hlow]; subst.
    destruct (IH ks Hs') as (H1 & H2).
    change (PathGen.repeatedLines (c :: cs) (k :: ks))
      with (repeat (Parser.lineNumber c) k ++ PathGen.repeatedLines cs ks).
    split.
    + apply repeat_sorted; [exact H1 |].
      rewrite Forall_forall in *. intros n Hn.
      specialize (Hlow n (H2 n Hn)). lia.
    + apply Forall_app. split.
      * apply Forall_forall. intros n Hn. apply repeat_spec in Hn. subst n.
        now left.
      * eapply Forall_impl; [| exact H2]. intros n Hn. now right.
Qed.

(** X16: parsing a document and generating its path keeps the points in
    the order of the document: read segment by segment, the line numbers of
    the points never decrease, and each is the number of a line of the
    document. *)
Theorem emitted_points_follow_the_document this content :
  let r := Parser.parseGCode content in
  let out := PathGen.generatePath this (Parser.commands r) in
  StronglySorted le (PathGen.lineNumbers out)
  /\ Forall (fun n => 1 <= n <= Parser.totalLines (Parser.stats r))
       (PathGen.lineNumbers out).
Proof.
  cbv zeta.
  destruct (run_lines (Parser.commands (Parser.parseGCode content))
              (PathGen.reset this)) as (counts & _ & Hl).
  pose proof (lineNumbers_flush
                (PathGen.run this (Parser.commands (Parser.parseGCode content))))
    as Hf.
  unfold PathGen.run in Hf. rewrite Hl in Hf.
  change (PathGen.lineNumbers (PathGen.allSegments (PathGen.reset this)))
    with (@nil nat) in Hf. cbn [app] in Hf.
  unfold PathGen.generatePath, PathGen.run. rewrite Hf. clear Hf Hl.
  unfold Parser.parseGCode.
  cbn [Parser.commands Parser.stats Parser.totalLines].
  destruct (forEach_lines_commands (JS.split_char Parser.LF content) 0
              Parser.initAcc) as (cmds & Hc & _ & _ & Hs & _ & Hin).
  cbn [Parser.a_commands Parser.initAcc app] in Hc. rewrite Hc.
  destruct (repeatedLines_sorted cmds counts Hs) as (H1 & H2).
  split; [exact H1 |].
  eapply Forall_impl; [| exact H2]. intros n Hn.
  apply in_map_iff in Hn. destruct Hn as (c & <- & Hcin).
  apply Hin in Hcin. destruct Hcin as (i & line & Hi & Hp).
  destruct (parseCommand_fields _ _ _ Hp) as (-> & _).
  assert (i < List.length (JS.split_char Parser.LF content))
    by (apply nth_error_Some; congruence).
  lia.
Qed.

End Pipeline.


(** * The playback speed and the frames *)

Section ViewerSpeeds.
Import Path Viewer.
Local Open Scope R_scope.

Variable atan2 : R -> R -> R.
Variable ellipsePoint : R -> R -> R -> R -> R -> R -> bool -> R -> R * R.

(** Two playback speeds, both positive. *)
Variables v v' : R.
Hypothesis v_pos : 0 < v.
Hypothesis v'_pos : 0 < v'.

Let k : R := v / v'.









End ViewerSpeeds.


(* ================================================================== *)
(** * Properties of the playback speed *)
(* ================================================================== *)

Section CalibrationProperties.
Import Path Calibration.
Local Open Scope R_scope.

Lemma norm_bounds dx dy dz :
  0 <= dx -> 0 <= dy -> 0 <= dz ->
  dx <= norm (dx, dy, dz) /\ dy <= norm (dx, dy, dz) /\ dz <= norm (dx, dy, dz)
  /\ norm (dx, dy, dz) <= dx + dy + dz.
Proof.
  intros Hx Hy Hz. unfold norm.
  assert (Hle : forall a, 0 <= a -> a * a <= dx * dx + dy * dy + dz * dz ->
                          a <= sqrt (dx * dx + dy * dy + dz * dz)).
  { intros a Ha H. rewrite <- (sqrt_square a Ha) at 1. now apply sqrt_le_1_alt. }
  repeat split; try (apply Hle; [assumption | nra]).
  rewrite <- (sqrt_square (dx + dy + dz)) by lra.
  apply sqrt_le_1_alt. nra.
Qed.

Lemma consistent_countMove arc a b i :
  consistent i -> consistent (countMove arc (deltas a b) i).
Proof.
  intros (Hx & Hy & Hz & Hsum & Harc & Hcount & Hzero & Hpos).
  unfold deltas, countMove.
  set (dx := Rabs (x a - x b)). set (dy := Rabs (y a - y b)).
  set (dz := Rabs (z a - z b)).
  assert (0 <= dx) by apply Rabs_pos. assert (0 <= dy) by apply Rabs_pos.
  assert (0 <= dz) by apply Rabs_pos.
  destruct (norm_bounds dx dy dz) as (Hnx & Hny & Hnz & Hn); try assumption.
  destruct (Rlt_dec (1 / 100) (norm (dx, dy, dz))) as [Hfar |];
    [| repeat split; assumption || apply Hx || apply Hy || apply Hz || apply Harc].
  assert (Hn0 : INR (moveCount i) / 100 <= totalDistance i).
  { destruct (Nat.eq_dec (moveCount i) 0) as [E | E].
    - rewrite (Hzero E), E. cbn. lra.
    - specialize (Hpos E). lra. }
  unfold consistent.
  cbn [totalDistance xDistance yDistance zDistance moveCount arcCount totalArcLength].
  repeat split; try lra.
  - destruct arc; lra.
  - destruct arc; lra.
  - destruct arc; lia.
  - discriminate.
  - intros _. rewrite S_INR. lra.
Qed.

Lemma consistent_pointStep t point :
  consistent (info t) -> consistent (info (pointStep t point)).
Proof.
  intros H. unfold pointStep. destruct (lastPosition t); [| exact H].
  now apply consistent_countMove.
Qed.

Lemma consistent_segmentStep t segment :
  consistent (info t) -> consistent (info (segmentStep t segment)).
Proof.
  intros H. unfold segmentStep.
  destruct (isArc (segType segment) && _).
  - destruct (points segment); [exact H |]. now apply consistent_countMove.
  - revert t H. induction (points segment) as [| p pts IH]; intros t H; [exact H |].
    cbn [fold_left]. apply IH. now apply consistent_pointStep.
Qed.

Lemma consistent_forEach segments : forall t,
  consistent (info t) -> consistent (info (fold_left segmentStep segments t)).
Proof.
  induction segments as [| sg segments IH]; intros t H; [exact H |].
  cbn [fold_left]. apply IH. now apply consistent_segmentStep.
Qed.

Lemma consistent_start : consistent (info (mkTally (mkInfo 0 0 0 0 0 0 0) None)).
Proof.
  unfold consistent. cbn. repeat split; try lra; try lia.
Qed.


Lemma ceilToHundred_upper v : v <= ceilToHundred v.
Proof.
  unfold ceilToHundred. pose proof (Zceil_bound (v / 100)) as (_ & H). lra.
Qed.

Lemma calculateAppropriateSpeed_range maxSpeed i :
  MIN_SPEED <= maxSpeed ->
  MIN_SPEED <= calculateAppropriateSpeed maxSpeed i <= maxSpeed.
Proof.
  intros H. unfold calculateAppropriateSpeed. split.
  - apply Rmin_glb; [apply Rmax_r | exact H].
  - apply Rmin_r.
Qed.

(** X19: [updatePath] keeps the playback speed within the slider: when
    the speed lies between [MIN_SPEED] and [MAX_SPEED] before, as it does
    at the start, it does so afterwards, with the new maximum, and it is
    positive; this holds whether the speeds are assigned or the update is
    abandoned. *)
Theorem chosen_speed_is_within_range ready s segments :
  inRange s ->
  let s' := updatePath ready s segments in
  inRange s' /\ 0 < playbackSpeed s'.
Proof.
  intros (Hlo & Hhi). cbv zeta. unfold updatePath, inRange.
  assert (Hs : MIN_SPEED <= playbackSpeed s <= MAX_SPEED s /\ 0 < playbackSpeed s)
    by (unfold MIN_SPEED in *; lra).
  destruct (negb ready); [exact Hs |].
  destruct (parsedSegments segments) as [| sg rest]; [exact Hs |].
  cbn [playbackSpeed MAX_SPEED].
  assert (Hmax : MIN_SPEED <= MAX_SPEED s) by lra.
  destruct (calculateAppropriateSpeed_range (MAX_SPEED s)
              (calculateToolHeadDistance (sg :: rest)) Hmax) as (H1 & H2).
  set (speed := calculateAppropriateSpeed _ _) in *.
  pose proof (ceilToHundred_upper (speed * (15 / 10))) as Hup.
  unfold MIN_SPEED in *. repeat split; lra.
Qed.

Lemma filtered_step f segment : filtered f -> filtered (filterStep f segment).
Proof.
  intros (Hne & Htl & Hnone). unfold filterStep.
  destruct (points segment) as [| p [| p2 rest]] eqn:E.
  - repeat split; assumption.
  - destruct (filterPosition f) as [lastPos |] eqn:El.
    + repeat split; cbn [validSegments filterPosition].
      * apply Forall_app. split; [exact Hne |]. repeat constructor. discriminate.
      * destruct (validSegments f) as [| s0 l]; cbn [app tl] in *; [constructor |].
        apply Forall_app. split; [exact Htl |]. repeat constructor.
      * discriminate.
    + rewrite (Hnone eq_refl). repeat split; cbn [validSegments filterPosition app tl].
      * repeat constructor. discriminate.
      * constructor.
      * discriminate.
  - repeat split; cbn [validSegments filterPosition].
    + apply Forall_app. split; [exact Hne |]. repeat constructor.
      rewrite E. discriminate.
    + destruct (validSegments f) as [| s0 l]; cbn [app tl] in *; [constructor |].
      apply Forall_app. split; [exact Htl |]. repeat constructor.
      rewrite E. cbn. lia.
    + discriminate.
Qed.

(** X24: the segments [updatePath] keeps for the animation: none is empty,
    and every one but the first holds at least two points, a segment of a
    single point having been turned into the move from the last position
    to that point. *)
Theorem kept_segments_are_moves segments :
  Forall (fun sg => points sg <> []) (parsedSegments segments)
  /\ Forall (fun sg => (2 <= List.length (points sg))%nat)
       (tl (parsedSegments segments)).
Proof.
  unfold parsedSegments.
  assert (H : filtered (fold_left filterStep segments (mkFilter [] None))).
  { assert (H0 : filtered (mkFilter [] None)) by (repeat split; constructor).
    revert H0. generalize (mkFilter [] None).
    induction segments as [| sg segments IH]; intros f H; [exact H |].
    cbn [fold_left]. apply IH. now apply filtered_step. }
  destruct H as (H1 & H2 & _). split; assumption.
Qed.

(** X20: a path on which no move is counted, such as the empty path or a
    single point, gets the minimum speed, whatever the maximum above it. *)
Theorem motionless_path_gets_minimum_speed maxSpeed segments :
  moveCount (calculateToolHeadDistance segments) = 0%nat ->
  MIN_SPEED <= maxSpeed ->
  calculateAppropriateSpeed maxSpeed (calculateToolHeadDistance segments)
  = MIN_SPEED.
Proof.
  intros Hm Hmax.
  assert (Hz : totalDistance (calculateToolHeadDistance segments) = 0).
  { pose proof (consistent_forEach segments _ consistent_start) as Hc.
    destruct Hc as (_ & _ & _ & _ & _ & _ & Hzero & _). exact (Hzero Hm). }
  unfold calculateAppropriateSpeed. rewrite Hz.
  replace (0 / (TARGET_ANIMATION_DURATION / 60) * _) with 0
    by (unfold Rdiv; now rewrite !Rmult_0_l).
  assert (Hc : ceilToHundred 0 = 0).
  { unfold ceilToHundred. rewrite (Zceil_eq 0 (0 / 100)); lra. }
  rewrite Hc. unfold MIN_SPEED in *.
  rewrite Rmax_right by lra. now rewrite Rmin_left.
Qed.

End CalibrationProperties.

Lemma chosen_speed_is_within_range_witness :
  let point := Path.mkPoint (Path.mkVector3 1%R 2%R 3%R) Path.G0 None None 1 None in
  let s' := Calibration.updatePath true Calibration.initialSpeeds
              [Path.mkSegment [point] Path.G0 false] in
  Calibration.inRange s' /\ (0 < Calibration.playbackSpeed s')%R.
Proof.
  cbv zeta.
  apply (chosen_speed_is_within_range true Calibration.initialSpeeds).
  unfold Calibration.inRange, Calibration.MIN_SPEED. cbn. lra.
Defined.

Lemma motionless_path_gets_minimum_speed_witness :
  let point := Path.mkPoint (Path.mkVector3 1%R 2%R 3%R) Path.G0 None None 1 None in
  let segs := [Path.mkSegment [point] Path.G0 false] in
  Calibration.calculateAppropriateSpeed 100000
    (Calibration.calculateToolHeadDistance segs)
  = Calibration.MIN_SPEED.
Proof.
  cbv zeta.
  apply (motionless_path_gets_minimum_speed 100000
           [Path.mkSegment
              [Path.mkPoint (Path.mkVector3 1%R 2%R 3%R) Path.G0 None None 1 None]
              Path.G0 false]).
  - reflexivity.
  - unfold Calibration.MIN_SPEED. lra.
Defined.

(* ================================================================== *)
(** * Properties of the arcs of the synthesizer *)
(* ================================================================== *)

Section ViewerArcs.
Import Viewer.
Local Open Scope R_scope.


End ViewerArcs.


(* ================================================================== *)
(** * Properties of the store *)
(* ================================================================== *)

Section StoreProperties.
Import Store.

Lemma coherent_validateContent st :
  coherent st -> coherent (snd (validateContent st)).
Proof. intros (_ & H). split; [reflexivity | exact H]. Qed.

Lemma coherent_step st a : coherent st -> coherent (step st a).
Proof.
  intros H. pose proof H as (He & Hr). destruct a; cbn [step].
  - split; [reflexivity | exact Hr].
  - now apply coherent_validateContent.
  - unfold parseContent_start. destruct (JS.isEmpty (rawContent st)); exact H.
  - unfold parseContent_resume, validateContent.
    destruct (Parser.isValid (Parser.validateGCode (rawContent st))) eqn:Ev;
      cbn [negb snd]; split; cbn [rawContent validationErrors parseResult];
      try reflexivity; try exact Hr.
    exists (rawContent st). split; [exact Ev | reflexivity].
  - split; [reflexivity | exact Logic.I].
Qed.

(** X23: whatever actions run on the store, in whatever order, and
    whatever runs while [parseContent] is suspended, the errors the store
    holds are those [validateGCode] gives for the content it holds, so that
    [isValid] tells whether that content is valid, and a parse result it
    holds is the parse of some content that passed validation. *)
Theorem store_stays_coherent actions :
  let st := fold_left step actions init in
  coherent st
  /\ isValid st = Parser.isValid (Parser.validateGCode (rawContent st)).
Proof.
  cbv zeta.
  assert (H : coherent (fold_left step actions init)).
  { assert (H0 : coherent init) by (split; [reflexivity | exact Logic.I]).
    revert H0. generalize init.
    induction actions as [| a actions IH]; intros st H; [exact H |].
    cbn [fold_left]. apply IH. now apply coherent_step. }
  split; [exact H |]. destruct H as (He & _).
  unfold isValid. rewrite He. reflexivity.
Qed.

End StoreProperties.
